(** * MandelbrotSet: the numeric core of [main.cpp]

    A shallow embedding of the three functions that make up the image
    pipeline of [src/main.cpp]:

    - [offset_in_interleaved_1d_vec]       (lines 13-21)
    - [get_number_of_iterations]           (lines 24-38)
    - [create_grayscale_mandelbrot_image]  (lines 45-81)
    - [main]                               (lines 95-124)

    Data is modelled as the program has it.  A [double] is a binary64
    float of the kernel ([PrimFloat.float]); [int], [uint32_t], [size_t]
    and [uint8_t] are integers of [Z] with their wrap-around written out;
    [std::vector<std::uint8_t>] is a list of bytes that is read and
    written by index, and a write outside of it or an allocation that
    [std::vector] refuses ends the run with a [fault]. *)

From Stdlib Require Import ZArith Lia Floats Uint63.
From Stdlib Require Ascii String.
From stdpp Require Import base option list.
Import String.StringSyntax.

Local Open Scope Z_scope.

(** ** Fixed-width integers *)

Module Machine.

Definition INT_MAX : Z := 2 ^ 31 - 1.
Definition INT_MIN : Z := - 2 ^ 31.

(** Membership in the value range of [int]. *)
Definition is_int (z : Z) : Prop := INT_MIN <= z <= INT_MAX.

(** Two's complement wrap-around of a 32-bit signed result.  C++ leaves a
    signed overflow undefined; the embedding takes the value the hardware
    produces.  An overflow occurs only in the product of line 52, and the
    run yields no image then, under this reading as under any other. *)
Definition wrap_int (z : Z) : Z := (z + 2 ^ 31) mod 2 ^ 32 - 2 ^ 31.

Definition int_mul (a b : Z) : Z := wrap_int (a * b).
Definition int_sub (a b : Z) : Z := wrap_int (a - b).

(** Conversions to the unsigned types are reductions modulo 2^w. *)
Definition to_uint32 (z : Z) : Z := z mod 2 ^ 32.
Definition to_size_t (z : Z) : Z := z mod 2 ^ 64.
Definition to_uint8 (z : Z) : Z := z mod 2 ^ 8.

Definition u32_mul (a b : Z) : Z := to_uint32 (a * b).
Definition u32_add (a b : Z) : Z := to_uint32 (a + b).

(** [int] to [double]: exact for every 32-bit value. *)
Definition double_of_int (n : Z) : float :=
  if n <? 0 then PrimFloat.opp (PrimFloat.of_uint63 (Uint63.of_Z (- n)))
  else PrimFloat.of_uint63 (Uint63.of_Z n).

End Machine.
Export Machine.

(** ** Outcomes of a run

    [std::vector] throws [std::length_error] when asked for more than
    [max_size()] elements, and [operator[]] outside the vector has no
    defined behaviour.  Both end the run without an image. *)

Inductive fault : Set :=
| length_error
| out_of_bounds.

Inductive result (A : Type) : Type :=
| Ok (a : A)
| Fail (f : fault).
Arguments Ok {A} a.
Arguments Fail {A} f.

#[global] Instance result_ret : MRet result := @Ok.
#[global] Instance result_bind : MBind result :=
  fun A B (k : A -> result B) (m : result A) =>
    match m with
    | Ok a => k a
    | Fail f => Fail f
    end.

(** ** [std::vector<std::uint8_t>] *)

Module Vector.

(** [max_size()] of a vector of one-byte elements: [PTRDIFF_MAX]. *)
Definition max_size : Z := 2 ^ 63 - 1.

(** [std::vector<std::uint8_t>(count, value)].  Memory is not modelled:
    an allocation that [max_size] admits succeeds. *)
Definition create (count : Z) (value : Z) : result (list Z) :=
  if max_size <? count then Fail length_error
  else Ok (replicate (Z.to_nat count) value).

(** [image[offset] = value]. *)
Definition store (image : list Z) (offset : Z) (value : Z) : result (list Z) :=
  if offset <? Z.of_nat (length image)
  then Ok (<[Z.to_nat offset := value]> image)
  else Fail out_of_bounds.

End Vector.

(** ** [std::complex<double>] *)

Record complex : Set := Complex { real : float; imag : float }.

(** The operations of [<complex>] that [main.cpp] calls.  Their code is the
    C++ library's, not the repository's, so the functions of [main.cpp] are
    embedded over any implementation of them. *)
Class ComplexLib : Set := {
  (** [std::abs(z)] *)
  cabs : complex -> float;
  (** [z * w] *)
  cmul : complex -> complex -> complex;
  (** [z + w] *)
  cadd : complex -> complex -> complex;
}.

(** Modelled from the spec: the bodies of [std::abs], [operator*] and
    [operator+] on [std::complex<double>] are not in [src/].  The spec gives
    the modulus as [sqrt(re^2 + im^2)]; product and sum are the algebraic
    ones, each operation rounded as binary64. *)
#[global] Instance libcomplex : ComplexLib := {|
  cabs z := PrimFloat.sqrt (real z * real z + imag z * imag z)%float;
  cmul z w := Complex (real z * real w - imag z * imag w)%float
                      (real z * imag w + imag z * real w)%float;
  cadd z w := Complex (real z + real w)%float (imag z + imag w)%float;
|}.

(** [a > b] on [double]: false as soon as one side is a NaN. *)
Definition double_gt (a b : float) : bool := PrimFloat.ltb b a.
Arguments double_gt : simpl never.

(** ** [offset_in_interleaved_1d_vec<channel_count>]

    All four arguments and the template argument are [uint32_t], so the
    arithmetic of line 19 is carried out modulo 2^32; the result is then
    widened to [size_t]. *)
Definition offset_in_interleaved_1d_vec
    (channel_count : Z) (width x y channel : Z) : Z :=
  let offset := u32_add (u32_mul (u32_add (u32_mul y width) x) channel_count) channel in
  to_size_t offset.

(** ** [get_number_of_iterations] *)

Section Evaluator.
Context {L : ComplexLib}.

(** The [for] loop of lines 28-34, entered with the counter at [i] and the
    recurrence variable at [z]; [trip] is the number of times the condition
    [i < max] still holds, that is [max - i]. *)
Fixpoint iterations_loop (trip : nat) (z0 : complex) (size : float) (max : Z)
    (i : Z) (z : complex) : Z :=
  match trip with
  | O => max
  | S trip' =>
      if double_gt (cabs z) size then i
      else iterations_loop trip' z0 size max (i + 1) (cadd (cmul z z) z0)
  end.

Definition get_number_of_iterations (z0 : complex) (size : float) (max : Z) : Z :=
  let z := z0 in
  iterations_loop (Z.to_nat (max - 0)) z0 size max 0 z.

End Evaluator.

(** ** Counted loops

    [for (auto i = lo; i < hi; i++) body] over a state [S] in which the body
    may fault.  [trip] is the number of iterations left; the counter cannot
    overflow, since it stays below [hi]. *)
Fixpoint for_loop {S : Type} (trip : nat) (i : Z)
    (body : Z -> S -> result S) (s : S) : result S :=
  match trip with
  | O => Ok s
  | Datatypes.S trip' => s' ← body i s; for_loop trip' (i + 1) body s'
  end.

Definition for_range {S : Type} (lo hi : Z)
    (body : Z -> S -> result S) (s : S) : result S :=
  for_loop (Z.to_nat (hi - lo)) lo body s.

(** ** [create_grayscale_mandelbrot_image] *)

Section Generator.
Context {L : ComplexLib}.

(** The lambda of lines 55-57; it captures [size] and [pixels_wide], and
    its [int] arguments are converted to [double] at the call. *)
Definition get_scaled_coordinate (size : float) (pixels_wide : Z)
    (center xy : float) : float :=
  (center - (size / 2) + ((size * xy) / double_of_int pixels_wide))%float.

Definition create_grayscale_mandelbrot_image
    (center_x center_y size : float) (max_iterations pixels_wide : Z)
    : result (list Z) :=
  image ← Vector.create (to_size_t (int_mul pixels_wide pixels_wide)) 0;
  for_range 0 pixels_wide (fun y image =>
    for_range 0 pixels_wide (fun x image =>
      let x0 := get_scaled_coordinate size pixels_wide center_x (double_of_int x) in
      let y0 := get_scaled_coordinate size pixels_wide center_y (double_of_int y) in
      let z := Complex x0 y0 in
      let gray := int_sub max_iterations
                    (get_number_of_iterations z size max_iterations) in
      let offset := offset_in_interleaved_1d_vec 1
                      (to_uint32 pixels_wide) (to_uint32 x) (to_uint32 y) (to_uint32 0) in
      Vector.store image offset (to_uint8 gray)) image) image.

(** The values the body of the inner loop computes at the pixel [(x, y)]:
    the point [z] of line 69, the iteration count, and [gray] of line 70
    before it is narrowed by the store of line 76. *)
Definition pixel_point (center_x center_y size : float) (pixels_wide x y : Z)
    : complex :=
  Complex (get_scaled_coordinate size pixels_wide center_x (double_of_int x))
          (get_scaled_coordinate size pixels_wide center_y (double_of_int y)).

Definition pixel_iterations (center_x center_y size : float)
    (max_iterations pixels_wide x y : Z) : Z :=
  get_number_of_iterations (pixel_point center_x center_y size pixels_wide x y)
    size max_iterations.

Definition pixel_gray (center_x center_y size : float)
    (max_iterations pixels_wide x y : Z) : Z :=
  int_sub max_iterations
    (pixel_iterations center_x center_y size max_iterations pixels_wide x y).

End Generator.

(** ** [main]

    The program draws the window of side 2 centred at [(-0.5, 0)] on a grid
    1024 wide, wraps the buffer in a [cv::Mat] without copying it, and hands
    it to [cv::imwrite].  OpenCV and the file system are outside of the
    repository: the encoder, the matrix type tag and the path that
    [get_output_file_path] computes from the working directory are taken as
    they come.  A run yields the exit status and what was written to
    [std::cout]. *)

Record Mat : Set := { rows : Z; cols : Z; type : Z; data : list Z }.

Definition endl : String.string := String.String (Ascii.ascii_of_nat 10) String.EmptyString.

Section Main.
Context {L : ComplexLib}.
Variable CV_8UC1 : Z.
Variable full_path : String.string.
Variable imwrite : String.string -> Mat -> bool.

Definition main : result (Z * String.string) :=
  let center_x := (-0.5)%float in
  let center_y := 0%float in
  let size := 2%float in
  let max_iterations := 255 in
  let image_pixels_wide := int_mul 512 2 in
  grayscale_image ← create_grayscale_mandelbrot_image
                      center_x center_y size max_iterations image_pixels_wide;
  let output_gray :=
    {| rows := image_pixels_wide; cols := image_pixels_wide;
       type := CV_8UC1; data := grayscale_image |} in
  let successful := imwrite full_path output_gray in
  if negb successful
  then Ok (0, String.append "Failed to write out file" endl)
  else Ok (0, String.append "Success!" endl).

End Main.

(** ** The generator and the memory it is given

    A call reads its five arguments and the buffer it allocates.  To tell
    what its result depends on, the memory is made explicit: [storage]
    gives the byte that each cell of the allocated block holds when the
    allocator hands the block out.  The constructor of line 52 then sets
    each of the [count] cells to [value], and the loops of lines 59-78 run
    on the buffer. *)
Definition vector_over (storage : nat -> Z) (count value : Z) : result (list Z) :=
  if Vector.max_size <? count then Fail length_error
  else Ok (map (fun _ : Z => value) (map storage (seq 0 (Z.to_nat count)))).

Section GeneratorMemory.
Context {L : ComplexLib}.

(** The loops of lines 59-78, run on a buffer in whatever state it is. *)
Definition fill_image
    (center_x center_y size : float) (max_iterations pixels_wide : Z)
    (image : list Z) : result (list Z) :=
  for_range 0 pixels_wide (fun y image =>
    for_range 0 pixels_wide (fun x image =>
      let x0 := get_scaled_coordinate size pixels_wide center_x (double_of_int x) in
      let y0 := get_scaled_coordinate size pixels_wide center_y (double_of_int y) in
      let z := Complex x0 y0 in
      let gray := int_sub max_iterations
                    (get_number_of_iterations z size max_iterations) in
      let offset := offset_in_interleaved_1d_vec 1
                      (to_uint32 pixels_wide) (to_uint32 x) (to_uint32 y) (to_uint32 0) in
      Vector.store image offset (to_uint8 gray)) image) image.

(** A call of the generator in a memory whose fresh block holds [storage]. *)
Definition create_grayscale_mandelbrot_image_over (storage : nat -> Z)
    (center_x center_y size : float) (max_iterations pixels_wide : Z)
    : result (list Z) :=
  image ← vector_over storage (to_size_t (int_mul pixels_wide pixels_wide)) 0;
  fill_image center_x center_y size max_iterations pixels_wide image.

End GeneratorMemory.

(** ** The algorithms as the specification words them *)

Section Specification.
Context {L : ComplexLib}.

(** The recurrence started at [c]: [z_0 = c], [z_(n+1) = z_n * z_n + c]. *)
Fixpoint orbit (c : complex) (n : nat) : complex :=
  match n with
  | O => c
  | S n' => cadd (cmul (orbit c n') (orbit c n')) c
  end.

(** The evaluator of the specification, as a relation between the state
    [(i, z)] of its loop and the count it returns from there: return [i]
    when [|z| > bound], otherwise go on with [z * z + c], and return
    [max_iterations] when [i] has run through [0 .. max_iterations - 1]. *)
Inductive EscapeTimeEvaluator (c : complex) (bound : float) (max_iterations : Z)
    : Z -> complex -> Z -> Prop :=
| evaluator_escape i z :
    i < max_iterations ->
    double_gt (cabs z) bound = true ->
    EscapeTimeEvaluator c bound max_iterations i z i
| evaluator_update i z r :
    i < max_iterations ->
    double_gt (cabs z) bound = false ->
    EscapeTimeEvaluator c bound max_iterations (i + 1) (cadd (cmul z z) c) r ->
    EscapeTimeEvaluator c bound max_iterations i z r
| evaluator_complete i z :
    max_iterations <= i ->
    EscapeTimeEvaluator c bound max_iterations i z max_iterations.


End Specification.

(** The image is complete up to the linear position [m]: every byte before
    [m] holds the narrowed gray value of its pixel, row by row. *)
Definition filled (pixels_wide : Z) (gray : Z -> Z -> Z) (m : Z) (image : list Z) : Prop :=
  forall j, 0 <= j < m ->
    image !! Z.to_nat j = Some (to_uint8 (gray (j mod pixels_wide) (j / pixels_wide))).

(** * Properties *)

(** ** Machine arithmetic *)

Lemma wrap_int_id z : is_int z -> wrap_int z = z.
Proof.
  unfold is_int, INT_MIN, INT_MAX, wrap_int. intros Hz.
  rewrite Z.mod_small; lia.
Qed.

Lemma to_uint8_wrap_int z : to_uint8 (wrap_int z) = to_uint8 z.
Proof.
  unfold to_uint8, wrap_int.
  pose proof (Z.div_mod (z + 2 ^ 31) (2 ^ 32) ltac:(lia)) as Hdm.
  replace ((z + 2 ^ 31) mod 2 ^ 32 - 2 ^ 31)
    with (z + (- (2 ^ 24) * ((z + 2 ^ 31) / 2 ^ 32)) * 2 ^ 8) by lia.
  apply Z.mod_add. lia.
Qed.

Lemma to_uint32_small z : 0 <= z < 2 ^ 32 -> to_uint32 z = z.
Proof. intros Hz. unfold to_uint32. now apply Z.mod_small. Qed.

Lemma to_size_t_small z : 0 <= z < 2 ^ 64 -> to_size_t z = z.
Proof. intros Hz. unfold to_size_t. now apply Z.mod_small. Qed.

Lemma to_uint8_range z : 0 <= to_uint8 z < 256.
Proof. unfold to_uint8. apply Z.mod_pos_bound. lia. Qed.

(** A pixel of a grid at most 65536 wide has a linear position below 2^32. *)
Lemma linear_position_bound w x y :
  0 < w <= 65536 -> 0 <= x < w -> 0 <= y < w ->
  0 <= y * w + x < w * w /\ w * w <= 2 ^ 32.
Proof. intros Hw Hx Hy. nia. Qed.

(** Below 2^32 the offset is the linear position: the 32-bit arithmetic of
    line 19 does not wrap. *)
Lemma offset_row_major_small w x y :
  0 <= w -> 0 <= x -> 0 <= y -> y * w + x < 2 ^ 32 ->
  offset_in_interleaved_1d_vec 1 w x y 0 = y * w + x.
Proof.
  intros Hw Hx Hy Hsmall.
  unfold offset_in_interleaved_1d_vec, u32_add, u32_mul.
  assert (Hyw : 0 <= y * w < 2 ^ 32) by nia.
  rewrite (to_uint32_small (y * w)) by lia.
  rewrite (to_uint32_small (y * w + x)) by lia.
  rewrite Z.mul_1_r, (to_uint32_small (y * w + x)) by lia.
  rewrite Z.add_0_r, (to_uint32_small (y * w + x)) by lia.
  apply to_size_t_small. lia.
Qed.

(** So it is for every pixel of a grid at most 65536 wide. *)
Lemma offset_row_major w x y :
  0 < w <= 65536 -> 0 <= x < w -> 0 <= y < w ->
  offset_in_interleaved_1d_vec 1 w x y 0 = y * w + x.
Proof.
  intros Hw Hx Hy.
  destruct (linear_position_bound w x y Hw Hx Hy) as [Hpos Hsq].
  apply offset_row_major_small; lia.
Qed.

(** Row and column are recovered from the linear position. *)
Lemma linear_position_inv w x y :
  0 <= x < w -> (y * w + x) mod w = x /\ (y * w + x) / w = y.
Proof.
  intros Hx. split.
  - rewrite Z.add_comm, Z.mod_add by lia. apply Z.mod_small; lia.
  - rewrite Z.add_comm, Z.div_add by lia. rewrite Z.div_small; lia.
Qed.

(** ** Counted loops *)

(** Invariant rule: an invariant that every iteration re-establishes holds
    when the loop is left, and the loop does not fault. *)
Lemma for_loop_invariant {S : Type} (Inv : Z -> S -> Prop)
    (body : Z -> S -> result S) (trip : nat) :
  forall i s,
    Inv i s ->
    (forall j t, i <= j < i + Z.of_nat trip -> Inv j t ->
       exists t', body j t = Ok t' /\ Inv (j + 1) t') ->
    exists s', for_loop trip i body s = Ok s' /\ Inv (i + Z.of_nat trip) s'.
Proof.
  induction trip as [|trip IH]; intros i s Hinv Hbody.
  - exists s. cbn. rewrite Z.add_0_r. auto.
  - destruct (Hbody i s ltac:(lia) Hinv) as (t & Hrun & Hinv').
    destruct (IH (i + 1) t Hinv') as (s' & Hrest & Hfinal).
    { intros j u Hj Hu. apply Hbody; [lia | exact Hu]. }
    exists s'. split.
    + cbn [for_loop]. rewrite Hrun. exact Hrest.
    + replace (i + Z.of_nat (Datatypes.S trip)) with (i + 1 + Z.of_nat trip) by lia.
      exact Hfinal.
Qed.

Lemma for_range_invariant {S : Type} (Inv : Z -> S -> Prop)
    (body : Z -> S -> result S) (lo hi : Z) (s : S) :
  lo <= hi ->
  Inv lo s ->
  (forall j t, lo <= j < hi -> Inv j t ->
     exists t', body j t = Ok t' /\ Inv (j + 1) t') ->
  exists s', for_range lo hi body s = Ok s' /\ Inv hi s'.
Proof.
  intros Hle Hinv Hbody. unfold for_range.
  destruct (for_loop_invariant Inv body (Z.to_nat (hi - lo)) lo s Hinv)
    as (s' & Hrun & Hfinal).
  { intros j t Hj. apply Hbody. lia. }
  exists s'. split; [exact Hrun|].
  replace (lo + Z.of_nat (Z.to_nat (hi - lo))) with hi in Hfinal by lia.
  exact Hfinal.
Qed.

(** Runs the loop at the head of the goal under the invariant [Inv]: what
    is left is the order of the bounds, the invariant on entry, its
    preservation by the body, and the goal once the loop has returned. *)
Ltac loop_invariant Inv :=
  match goal with
  | |- context [for_range ?lo ?hi ?body ?s] =>
      let H := fresh "Hloop" in
      assert (H : exists s', for_range lo hi body s = Ok s' /\ Inv hi s');
      [ apply (for_range_invariant Inv body lo hi s)
      | let s' := fresh "s" in
        let Hrun := fresh "Hrun" in
        let Hinv := fresh "Hinv" in
        destruct H as (s' & Hrun & Hinv); revert s' Hrun Hinv ]
  end.

(** ** The evaluator *)

Section EvaluatorFacts.
Context {L : ComplexLib}.
Variables (c : complex) (bound : float) (max : Z).

(** The loop returns either the counter of an iteration it ran or [max]. *)
Lemma iterations_loop_range trip :
  forall i z,
    iterations_loop trip c bound max i z = max \/
    i <= iterations_loop trip c bound max i z < i + Z.of_nat trip.
Proof.
  induction trip as [|trip IH]; intros i z; cbn [iterations_loop]; [now left|].
  destruct (double_gt (cabs z) bound); [right; lia|].
  destruct (IH (i + 1) (cadd (cmul z z) c)) as [Hr|Hr]; [now left | right; lia].
Qed.

(** The code computes what the specification's loop relates. *)
Lemma iterations_loop_evaluator trip :
  forall i z,
    trip = Z.to_nat (max - i) ->
    EscapeTimeEvaluator c bound max i z (iterations_loop trip c bound max i z).
Proof.
  induction trip as [|trip IH]; intros i z Htrip; cbn.
  - apply evaluator_complete. lia.
  - destruct (double_gt (cabs z) bound) eqn:Hgt.
    + apply evaluator_escape; [lia | exact Hgt].
    + apply evaluator_update; [lia | exact Hgt |]. apply IH. lia.
Qed.

(** The specification's loop is functional, and the code is its function. *)
Lemma evaluator_iterations_loop i z r :
  EscapeTimeEvaluator c bound max i z r ->
  iterations_loop (Z.to_nat (max - i)) c bound max i z = r.
Proof.
  induction 1 as [i z Hi Hgt | i z r Hi Hgt _ IH | i z Hi].
  - destruct (Z.to_nat (max - i)) as [|trip] eqn:Htrip; [lia|].
    cbn. now rewrite Hgt.
  - destruct (Z.to_nat (max - i)) as [|trip] eqn:Htrip; [lia|].
    cbn. rewrite Hgt. replace trip with (Z.to_nat (max - (i + 1))) by lia.
    exact IH.
  - replace (Z.to_nat (max - i)) with O by lia. reflexivity.
Qed.

(** From the state [(i, orbit c n)] the loop stops at the first later
    point of the orbit that lies outside the bound. *)
Lemma iterations_loop_escape k :
  forall trip n i,
    (k < trip)%nat ->
    (forall j, (j < k)%nat -> double_gt (cabs (orbit c (n + j))) bound = false) ->
    double_gt (cabs (orbit c (n + k))) bound = true ->
    iterations_loop trip c bound max i (orbit c n) = i + Z.of_nat k.
Proof.
  induction k as [|k IH]; intros trip n i Hk Hbefore Hat;
    (destruct trip as [|trip]; [lia|]); cbn [iterations_loop].
  - rewrite Nat.add_0_r in Hat. rewrite Hat. lia.
  - pose proof (Hbefore O ltac:(lia)) as H0. rewrite Nat.add_0_r in H0. rewrite H0.
    change (cadd (cmul (orbit c n) (orbit c n)) c) with (orbit c (Datatypes.S n)).
    rewrite (IH trip (Datatypes.S n) (i + 1)); [lia | lia | |].
    + intros j Hj. replace (Datatypes.S n + j)%nat with (n + Datatypes.S j)%nat by lia.
      apply Hbefore. lia.
    + replace (Datatypes.S n + k)%nat with (n + Datatypes.S k)%nat by lia. exact Hat.
Qed.

(** When no point of the orbit met by the loop lies outside the bound, the
    loop runs to its end and returns [max]. *)
Lemma iterations_loop_bounded trip :
  forall n i,
    (forall j, (j < trip)%nat -> double_gt (cabs (orbit c (n + j))) bound = false) ->
    iterations_loop trip c bound max i (orbit c n) = max.
Proof.
  induction trip as [|trip IH]; intros n i Hin; cbn [iterations_loop]; [reflexivity|].
  pose proof (Hin O ltac:(lia)) as H0. rewrite Nat.add_0_r in H0. rewrite H0.
  change (cadd (cmul (orbit c n) (orbit c n)) c) with (orbit c (Datatypes.S n)).
  apply IH. intros j Hj.
  replace (Datatypes.S n + j)%nat with (n + Datatypes.S j)%nat by lia.
  apply Hin. lia.
Qed.

Lemma get_number_of_iterations_range :
  0 <= max -> 0 <= get_number_of_iterations c bound max <= max.
Proof.
  intros Hmax. unfold get_number_of_iterations.
  destruct (iterations_loop_range (Z.to_nat (max - 0)) 0 c) as [Hr|Hr]; lia.
Qed.

Lemma get_number_of_iterations_nonpositive :
  max <= 0 -> get_number_of_iterations c bound max = max.
Proof.
  intros Hmax. unfold get_number_of_iterations.
  replace (Z.to_nat (max - 0)) with O by lia. reflexivity.
Qed.

(** A point that is within the bound and that the update leaves in place
    is never reported as escaping. *)
Lemma orbit_fixed n :
  cadd (cmul c c) c = c -> orbit c n = c.
Proof. intros Hfix. induction n as [|n IH]; cbn; [reflexivity|]. now rewrite IH. Qed.

Lemma get_number_of_iterations_fixed :
  double_gt (cabs c) bound = false ->
  cadd (cmul c c) c = c ->
  get_number_of_iterations c bound max = max.
Proof.
  intros Hin Hfix. unfold get_number_of_iterations.
  apply (iterations_loop_bounded _ O). intros j _.
  now rewrite orbit_fixed.
Qed.

End EvaluatorFacts.

(** ** The generator *)

(** The square of a width up to 46340 is an [int], so the element count of
    line 52 is the true one. *)
Lemma square_count w :
  0 <= w <= 46340 -> to_size_t (int_mul w w) = w * w.
Proof.
  intros Hw. unfold int_mul.
  rewrite wrap_int_id by (unfold is_int, INT_MIN, INT_MAX; nia).
  apply to_size_t_small. nia.
Qed.

Lemma vector_create_ok count value :
  0 <= count <= Vector.max_size ->
  exists image, Vector.create count value = Ok image /\
                length image = Z.to_nat count /\
                forall j, (j < Z.to_nat count)%nat -> image !! j = Some value.
Proof.
  intros Hc. unfold Vector.create.
  destruct (Z.ltb_spec Vector.max_size count) as [Hlt|_]; [lia|].
  eexists. split; [reflexivity|]. split.
  - apply length_replicate.
  - intros j Hj. now apply lookup_replicate_2.
Qed.

(** A store at the first position not yet filled extends the filled part
    by one byte and leaves the length alone. *)
Lemma store_extends_filled w gray m image :
  0 <= m < Z.of_nat (length image) ->
  filled w gray m image ->
  exists image',
    Vector.store image m (to_uint8 (gray (m mod w) (m / w))) = Ok image' /\
    length image' = length image /\
    filled w gray (m + 1) image'.
Proof.
  intros Hm Hfilled. unfold Vector.store.
  destruct (Z.ltb_spec m (Z.of_nat (length image))) as [_|Hge]; [|lia].
  eexists. split; [reflexivity|]. split; [apply length_insert|].
  intros j Hj. destruct (Z.eq_dec j m) as [->|Hne].
  - apply list_lookup_insert_eq. lia.
  - rewrite list_lookup_insert_ne by lia. apply Hfilled. lia.
Qed.

Section GeneratorFacts.
Context {L : ComplexLib}.
Variables (center_x center_y size : float) (max_iterations pixels_wide : Z).
Hypothesis width_fits : 0 < pixels_wide <= 46340.

(** One run of the inner loop's body, at a pixel of the grid. *)
Lemma pixel_store x y image :
  0 <= x < pixels_wide -> 0 <= y < pixels_wide ->
  length image = Z.to_nat (pixels_wide * pixels_wide) ->
  filled pixels_wide
      (pixel_gray center_x center_y size max_iterations pixels_wide)
      (y * pixels_wide + x) image ->
  exists image',
    Vector.store image
      (offset_in_interleaved_1d_vec 1 (to_uint32 pixels_wide) (to_uint32 x)
         (to_uint32 y) (to_uint32 0))
      (to_uint8 (pixel_gray center_x center_y size max_iterations pixels_wide x y)) = Ok image' /\
    length image' = Z.to_nat (pixels_wide * pixels_wide) /\
    filled pixels_wide
      (pixel_gray center_x center_y size max_iterations pixels_wide)
      (y * pixels_wide + (x + 1)) image'.
Proof.
  intros Hx Hy Hlen Hfilled.
  rewrite !to_uint32_small by lia.
  rewrite offset_row_major by lia.
  destruct (linear_position_inv pixels_wide x y Hx) as [Hcol Hrow].
  destruct (store_extends_filled pixels_wide
      (pixel_gray center_x center_y size max_iterations pixels_wide)
      (y * pixels_wide + x) image)
    as (image' & Hstore & Hlen' & Hfilled'); [nia | exact Hfilled |].
  rewrite Hcol, Hrow in Hstore.
  exists image'. split; [exact Hstore|]. split; [congruence|].
  now rewrite Z.add_assoc.
Qed.

(** The generator returns an image, of the size asked for, every byte of
    which is the narrowed gray value of its pixel. *)
Lemma create_image_filled :
  exists image,
    create_grayscale_mandelbrot_image center_x center_y size
      max_iterations pixels_wide = Ok image /\
    length image = Z.to_nat (pixels_wide * pixels_wide) /\
    filled pixels_wide
      (pixel_gray center_x center_y size max_iterations pixels_wide)
      (pixels_wide * pixels_wide) image.
Proof.
  unfold create_grayscale_mandelbrot_image.
  rewrite square_count by lia.
  destruct (vector_create_ok (pixels_wide * pixels_wide) 0)
    as (image0 & -> & Hlen0 & _); [unfold Vector.max_size; nia|].
  cbn [mbind result_bind].
  (* outer loop: the rows above [y] are filled *)
  loop_invariant (fun (y : Z) (image : list Z) =>
    length image = Z.to_nat (pixels_wide * pixels_wide) /\
    filled pixels_wide
      (pixel_gray center_x center_y size max_iterations pixels_wide)
      (y * pixels_wide) image).
  - lia.
  - split; [exact Hlen0|]. intros j Hj. lia.
  - intros y image Hy [Hlen Hrows]. cbv beta.
    (* inner loop: so is the row [y] up to the column [x] *)
    loop_invariant (fun (x : Z) (image : list Z) =>
      length image = Z.to_nat (pixels_wide * pixels_wide) /\
      filled pixels_wide
      (pixel_gray center_x center_y size max_iterations pixels_wide)
      (y * pixels_wide + x) image).
    + lia.
    + split; [exact Hlen|]. now rewrite Z.add_0_r.
    + intros x t Hx [Hlen' Hcols]. cbv zeta.
      destruct (pixel_store x y t Hx Hy Hlen' Hcols) as (t' & Hstore & Hlent & Hfill).
      exists t'. split; [exact Hstore|]. split; assumption.
    + intros image' Hrun [Hlen' Hrow]. exists image'.
      split; [exact Hrun|]. split; [exact Hlen'|].
      replace ((y + 1) * pixels_wide) with (y * pixels_wide + pixels_wide) by lia.
      exact Hrow.
  - intros image Hrun [Hlen Hfilled]. exists image.
    split; [exact Hrun|]. split; assumption.
Qed.

(** The byte of each pixel of the returned image. *)
Lemma create_image_pixel image x y :
  create_grayscale_mandelbrot_image center_x center_y size
    max_iterations pixels_wide = Ok image ->
  0 <= x < pixels_wide -> 0 <= y < pixels_wide ->
  length image = Z.to_nat (pixels_wide * pixels_wide) /\
  image !! Z.to_nat (y * pixels_wide + x) =
    Some ((max_iterations
           - pixel_iterations center_x center_y size max_iterations pixels_wide x y)
          mod 2 ^ 8).
Proof.
  intros Hrun Hx Hy.
  destruct create_image_filled as (image' & Hrun' & Hlen & Hfilled).
  assert (image' = image) as -> by congruence.
  split; [exact Hlen|].
  rewrite (Hfilled (y * pixels_wide + x)) by nia.
  destruct (linear_position_inv pixels_wide x y Hx) as [-> ->].
  unfold pixel_gray, int_sub. now rewrite to_uint8_wrap_int.
Qed.

End GeneratorFacts.

(** ** Widths beyond 46340

    The bound on the width in the facts above is the exact one: for every
    wider grid whose width is an [int], the run ends in a fault.  Either the
    wrapped product is negative and [std::vector] refuses the count, or it
    is a count [n] below 2^31, and then pixel number [n] of the traversal is
    stored outside of the [n] bytes of the buffer. *)

Lemma store_length image offset value image' :
  Vector.store image offset value = Ok image' -> length image' = length image.
Proof.
  unfold Vector.store. destruct (offset <? Z.of_nat (length image)); [|discriminate].
  intros [= <-]. apply length_insert.
Qed.

Lemma store_outside image offset value :
  Z.of_nat (length image) <= offset ->
  Vector.store image offset value = Fail out_of_bounds.
Proof.
  intros Hout. unfold Vector.store.
  destruct (Z.ltb_spec offset (Z.of_nat (length image))); [lia | reflexivity].
Qed.

Section LoopFaults.
Context {S : Type} (P : S -> Prop) (body : Z -> S -> result S).
Hypothesis body_keeps :
  forall j s s', P s -> body j s = Ok s' -> P s'.

Lemma for_loop_keeps trip :
  forall i s s', P s -> for_loop trip i body s = Ok s' -> P s'.
Proof.
  induction trip as [|trip IH]; intros i s s' Hs; cbn [for_loop].
  - now intros [= <-].
  - destruct (body i s) as [t|f] eqn:Hrun; cbn [mbind result_bind]; [|discriminate].
    apply IH. now apply (body_keeps i s).
Qed.

(** A body that faults at the index [k] in every state that satisfies [P]
    makes every loop over [k] fault. *)
Lemma for_loop_faults k trip :
  (forall s, P s -> exists f, body k s = Fail f) ->
  forall i s, i <= k < i + Z.of_nat trip -> P s ->
    exists f, for_loop trip i body s = Fail f.
Proof.
  intros Hk. induction trip as [|trip IH]; intros i s Hik Hs; [lia|].
  cbn [for_loop]. destruct (body i s) as [t|f] eqn:Hrun; cbn [mbind result_bind].
  - destruct (Z.eq_dec i k) as [->|Hne].
    + destruct (Hk s Hs) as (f & Hf). congruence.
    + apply IH; [lia|]. now apply (body_keeps i s).
  - now exists f.
Qed.

End LoopFaults.

Lemma create_image_too_wide {L : ComplexLib}
    (center_x center_y size : float) (max_iterations pixels_wide : Z) :
  46340 < pixels_wide <= INT_MAX ->
  exists f,
    create_grayscale_mandelbrot_image center_x center_y size
      max_iterations pixels_wide = Fail f.
Proof.
  unfold INT_MAX. intros Hw. unfold create_grayscale_mandelbrot_image, int_mul.
  set (n := wrap_int (pixels_wide * pixels_wide)).
  assert (Hn : - 2 ^ 31 <= n < 2 ^ 31).
  { unfold n, wrap_int.
    pose proof (Z.mod_pos_bound (pixels_wide * pixels_wide + 2 ^ 31) (2 ^ 32)
                  ltac:(lia)). lia. }
  destruct (Z.lt_ge_cases n 0) as [Hneg|Hpos].
  - (* the count is above [max_size] *)
    exists length_error. unfold Vector.create.
    replace (to_size_t n) with (n + 2 ^ 64).
    + destruct (Z.ltb_spec Vector.max_size (n + 2 ^ 64)) as [_|Hle]; [reflexivity|].
      unfold Vector.max_size in Hle. lia.
    + unfold to_size_t. symmetry.
      rewrite <- (Z.mod_add n 1 (2 ^ 64)) by lia.
      rewrite Z.mul_1_l. apply Z.mod_small. lia.
  - (* the buffer has [n] bytes, and pixel number [n] is outside of it *)
    rewrite to_size_t_small by lia.
    destruct (vector_create_ok n 0) as (image0 & -> & Hlen0 & _);
      [unfold Vector.max_size; lia|].
    cbn [mbind result_bind].
    assert (Hsq : n < pixels_wide * pixels_wide) by nia.
    pose proof (Z.div_mod n pixels_wide ltac:(lia)) as Hdm.
    pose proof (Z.mod_pos_bound n pixels_wide ltac:(lia)) as Hcol.
    assert (Hrow : 0 <= n / pixels_wide < pixels_wide).
    { split; [apply Z.div_pos; lia | apply Z.div_lt_upper_bound; lia]. }
    set (P := fun image : list Z => length image = Z.to_nat n).
    assert (Hstore : forall y x image image',
      P image ->
      Vector.store image
        (offset_in_interleaved_1d_vec 1 (to_uint32 pixels_wide) (to_uint32 x)
           (to_uint32 y) (to_uint32 0))
        (to_uint8 (int_sub max_iterations
           (get_number_of_iterations
              (Complex (get_scaled_coordinate size pixels_wide center_x (double_of_int x))
                       (get_scaled_coordinate size pixels_wide center_y (double_of_int y)))
              size max_iterations))) = Ok image' ->
      P image').
    { intros y x image image' Hlen Hrun. unfold P in *.
      now rewrite (store_length _ _ _ _ Hrun). }
    unfold for_range.
    apply (for_loop_faults P _) with (k := n / pixels_wide).
    + intros y image image' Himage. apply (for_loop_keeps P).
      * intros x t t'. apply Hstore.
      * exact Himage.
    + intros image Himage.
      apply (for_loop_faults P _) with (k := n mod pixels_wide).
      * intros x t t'. apply Hstore.
      * intros t Ht. exists out_of_bounds. cbv zeta.
        apply store_outside. unfold P in Ht. rewrite Ht.
        rewrite !to_uint32_small by lia.
        rewrite offset_row_major_small by nia. nia.
      * lia.
      * exact Himage.
    + lia.
    + exact Hlen0.
Qed.

(** The generator returns an image exactly for the widths up to 46340. *)
Lemma create_image_returns_iff {L : ComplexLib}
    (center_x center_y size : float) (max_iterations pixels_wide : Z) :
  0 < pixels_wide <= INT_MAX ->
  (exists image,
     create_grayscale_mandelbrot_image center_x center_y size
       max_iterations pixels_wide = Ok image)
  <-> pixels_wide <= 46340.
Proof.
  intros Hw. split.
  - intros (image & Hrun).
    destruct (Z.le_gt_cases pixels_wide 46340) as [Hle|Hgt]; [exact Hle|].
    destruct (create_image_too_wide center_x center_y size max_iterations
                pixels_wide ltac:(lia)) as (f & Hfail).
    congruence.
  - intros Hle.
    destruct (create_image_filled center_x center_y size max_iterations
                pixels_wide ltac:(lia)) as (image & Hrun & _).
    now exists image.
Qed.

(** ** The generator does not depend on the memory *)

(** Constructing the vector erases what the block held. *)
Lemma vector_over_create storage count value :
  vector_over storage count value = Vector.create count value.
Proof.
  unfold vector_over, Vector.create.
  destruct (Vector.max_size <? count); [reflexivity|]. f_equal.
  generalize (Z.to_nat count) as n. intros n. generalize O as start.
  induction n as [|n IH]; intros start; cbn; [reflexivity|].
  now rewrite IH.
Qed.

(** Two buffers of the same length that are filled up to their end are the
    same buffer. *)
Lemma filled_unique w gray m image image' :
  length image = Z.to_nat m -> length image' = Z.to_nat m ->
  filled w gray m image -> filled w gray m image' ->
  image = image'.
Proof.
  intros Hlen Hlen' Hfilled Hfilled'. apply list_eq. intros i.
  destruct (Nat.lt_ge_cases i (Z.to_nat m)) as [Hin|Hout].
  - pose proof (Hfilled (Z.of_nat i) ltac:(lia)) as Hbyte.
    pose proof (Hfilled' (Z.of_nat i) ltac:(lia)) as Hbyte'.
    rewrite Nat2Z.id in Hbyte, Hbyte'. congruence.
  - rewrite !lookup_ge_None_2 by lia. reflexivity.
Qed.

(** The loops fill a buffer of the right length, whatever it held. *)
Lemma fill_image_filled {L : ComplexLib}
    (center_x center_y size : float) (max_iterations pixels_wide : Z)
    (image0 : list Z) :
  0 < pixels_wide <= 46340 ->
  length image0 = Z.to_nat (pixels_wide * pixels_wide) ->
  exists image,
    fill_image center_x center_y size max_iterations pixels_wide image0
      = Ok image /\
    length image = Z.to_nat (pixels_wide * pixels_wide) /\
    filled pixels_wide
      (pixel_gray center_x center_y size max_iterations pixels_wide)
      (pixels_wide * pixels_wide) image.
Proof.
  intros Hw Hlen0. unfold fill_image.
  loop_invariant (fun (y : Z) (image : list Z) =>
    length image = Z.to_nat (pixels_wide * pixels_wide) /\
    filled pixels_wide
      (pixel_gray center_x center_y size max_iterations pixels_wide)
      (y * pixels_wide) image).
  - lia.
  - split; [exact Hlen0|]. intros j Hj. lia.
  - intros y image Hy [Hlen Hrows]. cbv beta.
    loop_invariant (fun (x : Z) (image : list Z) =>
      length image = Z.to_nat (pixels_wide * pixels_wide) /\
      filled pixels_wide
        (pixel_gray center_x center_y size max_iterations pixels_wide)
        (y * pixels_wide + x) image).
    + lia.
    + split; [exact Hlen|]. now rewrite Z.add_0_r.
    + intros x t Hx [Hlen' Hcols]. cbv zeta.
      destruct (pixel_store center_x center_y size max_iterations pixels_wide
                  Hw x y t Hx Hy Hlen' Hcols) as (t' & Hstore & Hlent & Hfill).
      exists t'. split; [exact Hstore|]. split; assumption.
    + intros image' Hrun [Hlen' Hrow]. exists image'.
      split; [exact Hrun|]. split; [exact Hlen'|].
      replace ((y + 1) * pixels_wide) with (y * pixels_wide + pixels_wide) by lia.
      exact Hrow.
  - intros image Hrun [Hlen Hfilled]. exists image.
    split; [exact Hrun|]. split; assumption.
Qed.

(** ** Comparisons of [double] *)

(** A bound above zero is not below zero. *)
Lemma positive_bound_not_exceeded_by_zero bound :
  PrimFloat.ltb 0 bound = true -> double_gt 0 bound = false.
Proof.
  unfold double_gt. rewrite !FloatAxioms.ltb_spec.
  change (Prim2SF 0) with (S754_zero false).
  destruct (Prim2SF bound) as [s | [] | | [] m e]; cbn; congruence.
Qed.

(** ** The scenarios of the specification, run on the embedding *)

(** A point outside the bound escapes at once. *)
Example escape_at_once :
  get_number_of_iterations (Complex 3 0) 2 255 = 0.
Proof. vm_compute. reflexivity. Qed.

(** The centre pixel maps back to the centre of the window, and the corner
    [(0, 0)] to the plane point [(-1.5, -1.0)]. *)
Example center_pixel_coordinate :
  get_scaled_coordinate 2 1024 (-0.5) (double_of_int 512) = (-0.5)%float.
Proof. vm_compute. reflexivity. Qed.

Example corner_pixel_point :
  pixel_point (-0.5) 0 2 1024 0 0 = Complex (-1.5) (-1).
Proof. vm_compute. reflexivity. Qed.

(** The pixel [(512, 512)] of the reference image runs through the whole
    budget and has the gray value [0]; the corner escapes early and has a
    positive one. *)
Example reference_image_pixels :
  pixel_iterations (-0.5) 0 2 255 1024 512 512 = 255 /\
  pixel_gray (-0.5) 0 2 255 1024 512 512 = 0 /\
  pixel_iterations (-0.5) 0 2 255 1024 0 0 = 1 /\
  pixel_gray (-0.5) 0 2 255 1024 0 0 = 254.
Proof. vm_compute. repeat split. Qed.

(** A whole image, four pixels wide. *)
Example image_four_wide :
  create_grayscale_mandelbrot_image (-0.5) 0 2 255 4
  = Ok [254; 253; 252;   0;
        253; 251;   0;   0;
          0;   0;   0;   0;
        253; 251;   0;   0].
Proof. vm_compute. reflexivity. Qed.

(** The loops overwrite what the buffer held: started on a buffer of nines
    they leave the image of the generator. *)
Example fill_image_overwrites :
  fill_image 3 1 2 255 2 [9; 9; 9; 9] = Ok [254; 255; 255; 255] /\
  create_grayscale_mandelbrot_image 3 1 2 255 2 = Ok [254; 255; 255; 255] /\
  create_grayscale_mandelbrot_image_over (fun cell => Z.of_nat cell + 7) 3 1 2 255 2
    = Ok [254; 255; 255; 255].
Proof. vm_compute. repeat split. Qed.

(** * The claims *)

(** C1 (as amended).  For every window and every grid whose width is
    positive and at most 46340, so that [pixels_wide * pixels_wide] is an
    [int], the generator returns a buffer of [pixels_wide * pixels_wide]
    bytes in which the byte of the pixel [(x, y)], at offset
    [y * pixels_wide + x], is [max_iterations - get_number_of_iterations c
    size max_iterations] narrowed to one byte, [c] being the point whose
    parts are [x] mapped with [center_x] and [y] mapped with [center_y], and
    the bound of the evaluator being the window size. *)
Theorem create_image_correct {L : ComplexLib}
    (center_x center_y size : float) (max_iterations pixels_wide : Z) :
  0 < pixels_wide <= 46340 ->
  0 < max_iterations ->
  exists image,
    create_grayscale_mandelbrot_image center_x center_y size
      max_iterations pixels_wide = Ok image /\
    length image = Z.to_nat (pixels_wide * pixels_wide) /\
    forall x y, 0 <= x < pixels_wide -> 0 <= y < pixels_wide ->
      let c := Complex
                 (get_scaled_coordinate size pixels_wide center_x (double_of_int x))
                 (get_scaled_coordinate size pixels_wide center_y (double_of_int y)) in
      image !! Z.to_nat (y * pixels_wide + x) =
        Some (to_uint8 (max_iterations - get_number_of_iterations c size max_iterations)).
Proof.
  intros Hw _.
  destruct (create_image_filled center_x center_y size max_iterations pixels_wide Hw)
    as (image & Hrun & Hlen & _).
  exists image. split; [exact Hrun|]. split; [exact Hlen|].
  intros x y Hx Hy c.
  now destruct (create_image_pixel center_x center_y size max_iterations
                  pixels_wide Hw image x y Hrun Hx Hy) as [_ ->].
Qed.

Lemma create_image_correct_witness :
  exists image,
    create_grayscale_mandelbrot_image (-0.5) 0 2 255 4 = Ok image /\
    length image = Z.to_nat (4 * 4) /\
    forall x y, 0 <= x < 4 -> 0 <= y < 4 ->
      let c := Complex (get_scaled_coordinate 2 4 (-0.5) (double_of_int x))
                       (get_scaled_coordinate 2 4 0 (double_of_int y)) in
      image !! Z.to_nat (y * 4 + x) =
        Some (to_uint8 (255 - get_number_of_iterations c 2 255)).
Proof. apply (create_image_correct (-0.5) 0 2 255 4); lia. Defined.

(** C1 as stated fails: at the width 46341 the product
    [pixels_wide * pixels_wide] leaves [int], the count handed to
    [std::vector] exceeds [max_size()], and no buffer is returned. *)
Lemma create_image_width_counterexample :
  0 < 46341 /\ 0 < 255 /\ PrimFloat.ltb 0 2 = true /\
  ~ exists image,
      create_grayscale_mandelbrot_image (-0.5) 0 2 255 46341 = Ok image /\
      length image = Z.to_nat (46341 * 46341).
Proof.
  split; [lia|]. split; [lia|]. split; [reflexivity|].
  intros (image & Hrun & _).
  assert (Hfail : create_grayscale_mandelbrot_image (-0.5) 0 2 255 46341
                  = Fail length_error) by (vm_compute; reflexivity).
  congruence.
Qed.

(** C2.  [get_number_of_iterations] is the evaluator of the specification:
    started in the state [(0, c)], so with the recurrence variable at [c],
    that loop returns [r] exactly when the function does.  The first test is
    on [|c|]: a point outside the bound yields [0]; and the count returned is
    the index of the first point of the orbit of [c] outside the bound, or
    [max_iterations] when there is none among the first [max_iterations]. *)
Theorem get_number_of_iterations_algorithm {L : ComplexLib}
    (c : complex) (bound : float) (max_iterations : Z) :
  (forall r, EscapeTimeEvaluator c bound max_iterations 0 c r <->
             get_number_of_iterations c bound max_iterations = r) /\
  (0 < max_iterations -> double_gt (cabs c) bound = true ->
     get_number_of_iterations c bound max_iterations = 0) /\
  (forall i, 0 <= i < max_iterations ->
     (forall j, (j < Z.to_nat i)%nat -> double_gt (cabs (orbit c j)) bound = false) ->
     double_gt (cabs (orbit c (Z.to_nat i))) bound = true ->
     get_number_of_iterations c bound max_iterations = i) /\
  ((forall j, (j < Z.to_nat max_iterations)%nat ->
      double_gt (cabs (orbit c j)) bound = false) ->
   get_number_of_iterations c bound max_iterations = max_iterations).
Proof.
  assert (Hescape : forall i, 0 <= i < max_iterations ->
     (forall j, (j < Z.to_nat i)%nat -> double_gt (cabs (orbit c j)) bound = false) ->
     double_gt (cabs (orbit c (Z.to_nat i))) bound = true ->
     get_number_of_iterations c bound max_iterations = i).
  { intros i Hi Hbefore Hat. unfold get_number_of_iterations.
    change c with (orbit c 0) at 2.
    rewrite (iterations_loop_escape c bound max_iterations (Z.to_nat i)); [lia | lia | |].
    - intros j Hj. now apply Hbefore.
    - exact Hat. }
  repeat split.
  - intros Hrun. apply (evaluator_iterations_loop c bound max_iterations 0 c r Hrun).
  - intros <-. now apply iterations_loop_evaluator.
  - intros Hmax Hgt. apply (Hescape 0); [lia | intros j Hj; lia | exact Hgt].
  - exact Hescape.
  - intros Hin. unfold get_number_of_iterations.
    apply (iterations_loop_bounded c bound max_iterations _ O).
    intros j Hj. apply Hin. lia.
Qed.

(** C3.  For every point, every bound and every positive iteration budget
    (an [int]), [get_number_of_iterations] returns a count between [0] and
    [max_iterations]; hence the gray value of every pixel, before it is
    narrowed to a byte, lies between [0] and [max_iterations] too. *)
Theorem get_number_of_iterations_bounds {L : ComplexLib}
    (c : complex) (bound : float) (max_iterations : Z) :
  0 < max_iterations <= INT_MAX ->
  0 <= get_number_of_iterations c bound max_iterations <= max_iterations /\
  forall (center_x center_y size : float) (pixels_wide x y : Z),
    0 <= x < pixels_wide -> 0 <= y < pixels_wide ->
    0 <= pixel_gray center_x center_y size max_iterations pixels_wide x y
      <= max_iterations.
Proof.
  intros Hmax. split.
  - apply get_number_of_iterations_range. lia.
  - intros center_x center_y size pixels_wide x y _ _.
    unfold pixel_gray, pixel_iterations, int_sub.
    pose proof (get_number_of_iterations_range
      (pixel_point center_x center_y size pixels_wide x y) size max_iterations
      ltac:(lia)) as Hr.
    rewrite wrap_int_id; [lia|].
    unfold is_int, INT_MIN, INT_MAX in *. lia.
Qed.

Lemma get_number_of_iterations_bounds_witness :
  0 <= get_number_of_iterations (Complex 0.25 0.5) 2 255 <= 255 /\
  forall (center_x center_y size : float) (pixels_wide x y : Z),
    0 <= x < pixels_wide -> 0 <= y < pixels_wide ->
    0 <= pixel_gray center_x center_y size 255 pixels_wide x y <= 255.
Proof.
  apply (get_number_of_iterations_bounds (Complex 0.25 0.5) 2 255).
  unfold INT_MAX. lia.
Defined.


(** C5 (as amended).  The stored intensity falls as the iteration count
    rises.  In the image of a grid of width at most 46340, a pixel whose
    count is [max_iterations] (a bounded point) is stored as [0], and no
    pixel is stored darker, whatever the budget.  When the budget is at
    most 255 the byte of a pixel is [max_iterations - iterations]: a pixel
    whose count is [0] (an immediate escape) is stored as
    [max_iterations], and no pixel is stored brighter; and of two pixels
    the one with the smaller count is stored strictly brighter. *)
Theorem stored_intensity_of_iterations {L : ComplexLib}
    (center_x center_y size : float)
    (max_iterations pixels_wide x1 y1 x2 y2 : Z) :
  0 < pixels_wide <= 46340 ->
  0 < max_iterations ->
  0 <= x1 < pixels_wide -> 0 <= y1 < pixels_wide ->
  0 <= x2 < pixels_wide -> 0 <= y2 < pixels_wide ->
  let iterations1 :=
    pixel_iterations center_x center_y size max_iterations pixels_wide x1 y1 in
  let iterations2 :=
    pixel_iterations center_x center_y size max_iterations pixels_wide x2 y2 in
  exists image byte1 byte2,
    create_grayscale_mandelbrot_image center_x center_y size
      max_iterations pixels_wide = Ok image /\
    image !! Z.to_nat (y1 * pixels_wide + x1) = Some byte1 /\
    image !! Z.to_nat (y2 * pixels_wide + x2) = Some byte2 /\
    (iterations1 = max_iterations -> byte1 = 0 /\ byte1 <= byte2) /\
    (max_iterations <= 255 ->
       byte1 = max_iterations - iterations1 /\
       byte2 = max_iterations - iterations2 /\
       (iterations1 = 0 -> byte1 = max_iterations /\ byte2 <= byte1) /\
       (iterations1 < iterations2 -> byte2 < byte1)).
Proof.
  intros Hw Hmax Hx1 Hy1 Hx2 Hy2 iterations1 iterations2.
  destruct (create_image_filled center_x center_y size max_iterations pixels_wide Hw)
    as (image & Hrun & _).
  destruct (create_image_pixel center_x center_y size max_iterations
              pixels_wide Hw image x1 y1 Hrun Hx1 Hy1) as [_ Hbyte1].
  destruct (create_image_pixel center_x center_y size max_iterations
              pixels_wide Hw image x2 y2 Hrun Hx2 Hy2) as [_ Hbyte2].
  fold iterations1 in Hbyte1. fold iterations2 in Hbyte2.
  assert (Hr1 : 0 <= iterations1 <= max_iterations).
  { apply get_number_of_iterations_range. lia. }
  assert (Hr2 : 0 <= iterations2 <= max_iterations).
  { apply get_number_of_iterations_range. lia. }
  exists image, ((max_iterations - iterations1) mod 2 ^ 8),
    ((max_iterations - iterations2) mod 2 ^ 8).
  split; [exact Hrun|]. split; [exact Hbyte1|]. split; [exact Hbyte2|].
  split.
  - intros ->. rewrite Z.sub_diag. split; [reflexivity|].
    pose proof (Z.mod_pos_bound (max_iterations - iterations2) (2 ^ 8) ltac:(lia)).
    rewrite Z.mod_0_l by lia. lia.
  - intros Hsmall. rewrite !Z.mod_small by lia.
    repeat split; lia.
Qed.

(** On the grid of width 2 centred at [(3, 1)] the pixel [(1, 0)] is the
    point [(3, 0)], which escapes at once, and the pixel [(0, 0)] is the
    point [(2, 0)], which escapes after one step: they are stored as 255
    and as 254. *)
Lemma stored_intensity_of_iterations_witness :
  (pixel_iterations 3 1 2 255 2 1 0 = 0 /\
   pixel_iterations 3 1 2 255 2 0 0 = 1) /\
  let iterations1 := pixel_iterations 3 1 2 255 2 1 0 in
  let iterations2 := pixel_iterations 3 1 2 255 2 0 0 in
  exists image byte1 byte2,
    create_grayscale_mandelbrot_image 3 1 2 255 2 = Ok image /\
    image !! Z.to_nat (0 * 2 + 1) = Some byte1 /\
    image !! Z.to_nat (0 * 2 + 0) = Some byte2 /\
    (iterations1 = 255 -> byte1 = 0 /\ byte1 <= byte2) /\
    (255 <= 255 ->
       byte1 = 255 - iterations1 /\
       byte2 = 255 - iterations2 /\
       (iterations1 = 0 -> byte1 = 255 /\ byte2 <= byte1) /\
       (iterations1 < iterations2 -> byte2 < byte1)).
Proof.
  split; [split; vm_compute; reflexivity|].
  apply (stored_intensity_of_iterations 3 1 2 255 2 1 0 0 0); lia.
Defined.

(** C5 as stated fails.  On the one-pixel grid centred at [(1, 1)] with the
    window size 2 the pixel is the origin: its count is [max_iterations =
    255], a bounded point, and it is stored as [0], not as [255].  Centred at
    [(4, 1)] the pixel is [(3, 0)]: its count is [0], the quickest escape,
    and it is stored as [255], not near [0]. *)
Lemma bounded_pixel_brightest_counterexample :
  (pixel_iterations 1 1 2 255 1 0 0 = 255 /\
   create_grayscale_mandelbrot_image 1 1 2 255 1 = Ok [0] /\
   [0] !! Z.to_nat (0 * 1 + 0) <> Some 255) /\
  (pixel_iterations 4 1 2 255 1 0 0 = 0 /\
   create_grayscale_mandelbrot_image 4 1 2 255 1 = Ok [255] /\
   [255] !! Z.to_nat (0 * 1 + 0) <> Some 0).
Proof.
  split; (split; [vm_compute; reflexivity|]);
    (split; [vm_compute; reflexivity | discriminate]).
Qed.

(** C6.  For [c = (0.0, 0.0)], every bound above zero and [max_iterations =
    255], [get_number_of_iterations] returns [255]: [|0| > bound] is false,
    and the update [0 * 0 + 0] leaves [z] at zero. *)
Theorem origin_never_escapes (bound : float) :
  PrimFloat.ltb 0 bound = true ->
  get_number_of_iterations (Complex 0 0) bound 255 = 255.
Proof.
  intros Hbound. apply get_number_of_iterations_fixed.
  - change (cabs (Complex 0 0)) with 0%float.
    now apply positive_bound_not_exceeded_by_zero.
  - reflexivity.
Qed.

Lemma origin_never_escapes_witness :
  get_number_of_iterations (Complex 0 0) 2 255 = 255.
Proof. apply (origin_never_escapes 2). reflexivity. Defined.

(** C7.  When [max_iterations] is above 255, the byte stored for a pixel is
    [max_iterations - iterations] reduced modulo 256: the conversion from
    [int] to [uint8_t] wraps, it does not saturate.  This holds of every
    image the generator returns, and it returns one for every width up to
    46340. *)
Theorem stored_byte_wraps {L : ComplexLib}
    (center_x center_y size : float) (max_iterations pixels_wide x y : Z) :
  255 < max_iterations ->
  0 < pixels_wide <= INT_MAX ->
  0 <= x < pixels_wide -> 0 <= y < pixels_wide ->
  (pixels_wide <= 46340 ->
   exists image,
     create_grayscale_mandelbrot_image center_x center_y size
       max_iterations pixels_wide = Ok image) /\
  (forall image,
     create_grayscale_mandelbrot_image center_x center_y size
       max_iterations pixels_wide = Ok image ->
     image !! Z.to_nat (offset_in_interleaved_1d_vec 1 pixels_wide x y 0) =
       Some ((max_iterations
              - pixel_iterations center_x center_y size max_iterations pixels_wide x y)
             mod 256)).
Proof.
  intros _ Hw Hx Hy.
  pose proof (create_image_returns_iff center_x center_y size max_iterations
                pixels_wide Hw) as [Hreturns Hfits].
  split; [exact Hfits|].
  intros image Hrun.
  assert (Hnarrow : 0 < pixels_wide <= 46340).
  { split; [lia|]. apply Hreturns. now exists image. }
  rewrite offset_row_major by lia.
  now destruct (create_image_pixel center_x center_y size max_iterations
                  pixels_wide Hnarrow image x y Hrun Hx Hy) as [_ ->].
Qed.

(** With a budget of 256, the pixel [(3, 0)] escapes at once, its gray value
    is 256, and the byte stored for it is [0] where saturation would have
    given [255]. *)
Lemma stored_byte_wraps_witness :
  (1 <= 46340 ->
   exists image, create_grayscale_mandelbrot_image 4 1 2 256 1 = Ok image) /\
  (forall image,
     create_grayscale_mandelbrot_image 4 1 2 256 1 = Ok image ->
     image !! Z.to_nat (offset_in_interleaved_1d_vec 1 1 0 0 0) =
       Some ((256 - pixel_iterations 4 1 2 256 1 0 0) mod 256)).
Proof.
  apply (stored_byte_wraps 4 1 2 256 1 0 0); unfold INT_MAX; lia.
Defined.

(** C8.  The generator is deterministic: two calls with the same five
    arguments return the same buffer, byte for byte (or the same fault),
    whatever the memory that each call is given holds; it is the buffer of
    [create_grayscale_mandelbrot_image].  The constructor erases the block,
    and for a width up to 46340 the loops by themselves overwrite every
    byte: run on any two buffers of the right length they leave the same
    image. *)
Theorem create_image_deterministic {L : ComplexLib}
    (center_x center_y size : float) (max_iterations pixels_wide : Z)
    (storage storage' : nat -> Z) :
  create_grayscale_mandelbrot_image_over storage center_x center_y size
    max_iterations pixels_wide
  = create_grayscale_mandelbrot_image_over storage' center_x center_y size
      max_iterations pixels_wide /\
  create_grayscale_mandelbrot_image_over storage center_x center_y size
    max_iterations pixels_wide
  = create_grayscale_mandelbrot_image center_x center_y size
      max_iterations pixels_wide /\
  (0 < pixels_wide <= 46340 ->
   forall image image' : list Z,
     length image = Z.to_nat (pixels_wide * pixels_wide) ->
     length image' = Z.to_nat (pixels_wide * pixels_wide) ->
     fill_image center_x center_y size max_iterations pixels_wide image
     = fill_image center_x center_y size max_iterations pixels_wide image' /\
     fill_image center_x center_y size max_iterations pixels_wide image
     = create_grayscale_mandelbrot_image center_x center_y size
         max_iterations pixels_wide).
Proof.
  assert (Hover : forall cells : nat -> Z,
    create_grayscale_mandelbrot_image_over cells center_x center_y size
      max_iterations pixels_wide
    = create_grayscale_mandelbrot_image center_x center_y size
        max_iterations pixels_wide).
  { intros cells.
    unfold create_grayscale_mandelbrot_image_over, create_grayscale_mandelbrot_image.
    now rewrite vector_over_create. }
  split; [now rewrite !Hover|]. split; [apply Hover|].
  intros Hw image image' Hlen Hlen'.
  destruct (create_image_filled center_x center_y size max_iterations
              pixels_wide Hw) as (final & Hrun & Hlenf & Hfilled).
  assert (Hfill : forall image0 : list Z,
    length image0 = Z.to_nat (pixels_wide * pixels_wide) ->
    fill_image center_x center_y size max_iterations pixels_wide image0
    = Ok final).
  { intros image0 Hlen0.
    destruct (fill_image_filled center_x center_y size max_iterations
                pixels_wide image0 Hw Hlen0) as (image1 & -> & Hlen1 & Hfilled1).
    f_equal.
    now apply (filled_unique pixels_wide
                 (pixel_gray center_x center_y size max_iterations pixels_wide)
                 (pixels_wide * pixels_wide)). }
  rewrite Hrun, (Hfill image Hlen), (Hfill image' Hlen'). split; reflexivity.
Qed.

(** C9 (as amended).  For every width that is positive and at most 65536,
    the offsets of two distinct pixels of the grid differ, and each is below
    [pixels_wide * pixels_wide]. *)
Theorem offset_injective_in_bounds (pixels_wide x1 y1 x2 y2 : Z) :
  0 < pixels_wide <= 65536 ->
  0 <= x1 < pixels_wide -> 0 <= y1 < pixels_wide ->
  0 <= x2 < pixels_wide -> 0 <= y2 < pixels_wide ->
  (x1, y1) <> (x2, y2) ->
  offset_in_interleaved_1d_vec 1 pixels_wide x1 y1 0
    <> offset_in_interleaved_1d_vec 1 pixels_wide x2 y2 0 /\
  0 <= offset_in_interleaved_1d_vec 1 pixels_wide x1 y1 0
    < pixels_wide * pixels_wide /\
  0 <= offset_in_interleaved_1d_vec 1 pixels_wide x2 y2 0
    < pixels_wide * pixels_wide.
Proof.
  intros Hw Hx1 Hy1 Hx2 Hy2 Hne.
  rewrite !offset_row_major by lia.
  split; [|split; nia].
  intros Heq. apply Hne.
  destruct (linear_position_inv pixels_wide x1 y1 Hx1) as [Hc1 Hr1].
  destruct (linear_position_inv pixels_wide x2 y2 Hx2) as [Hc2 Hr2].
  rewrite Heq in Hc1, Hr1. congruence.
Qed.

Lemma offset_injective_in_bounds_witness :
  offset_in_interleaved_1d_vec 1 65536 65535 0 0
    <> offset_in_interleaved_1d_vec 1 65536 0 65535 0 /\
  0 <= offset_in_interleaved_1d_vec 1 65536 65535 0 0 < 65536 * 65536 /\
  0 <= offset_in_interleaved_1d_vec 1 65536 0 65535 0 < 65536 * 65536.
Proof.
  apply (offset_injective_in_bounds 65536 65535 0 0 65535);
    [lia | lia | lia | lia | lia | discriminate].
Defined.

(** C9 as stated fails.  At the width 65537 the pixels [(0, 65536)] and
    [(65536, 0)] are distinct pixels of the grid, and the 32-bit product
    [65536 * 65537] wraps, so both get the offset 65536. *)
Lemma offset_collision_counterexample :
  0 < 65537 /\
  0 <= 0 < 65537 /\ 0 <= 65536 < 65537 /\
  (0, 65536) <> (65536, 0) /\
  offset_in_interleaved_1d_vec 1 65537 0 65536 0
    = offset_in_interleaved_1d_vec 1 65537 65536 0 0.
Proof.
  split; [lia|]. split; [lia|]. split; [lia|]. split; [discriminate|].
  vm_compute. reflexivity.
Qed.

(** C10.  For every point and every bound, a budget [max_iterations <= 0] is
    returned as it is, whatever the library's modulus and product are: the
    loop body is not entered.  A negative budget thus comes back negative,
    outside of the range from [0] to [max_iterations]. *)
Theorem get_number_of_iterations_nonpositive_budget {L : ComplexLib}
    (c : complex) (bound : float) (max_iterations : Z) :
  max_iterations <= 0 ->
  get_number_of_iterations c bound max_iterations = max_iterations /\
  Z.to_nat (max_iterations - 0) = O /\
  (max_iterations < 0 ->
     ~ 0 <= get_number_of_iterations c bound max_iterations <= max_iterations).
Proof.
  intros Hmax.
  rewrite (get_number_of_iterations_nonpositive c bound max_iterations Hmax).
  repeat split; lia.
Qed.

Lemma get_number_of_iterations_nonpositive_budget_witness :
  get_number_of_iterations (Complex 3 0) 2 (-3) = -3 /\
  Z.to_nat (-3 - 0) = O /\
  (-3 < 0 -> ~ 0 <= get_number_of_iterations (Complex 3 0) 2 (-3) <= -3).
Proof.
  apply (get_number_of_iterations_nonpositive_budget (Complex 3 0) 2 (-3)). lia.
Defined.


(** * Further properties of the code *)

(** ** The offset of an interleaved buffer, for any number of channels *)

(** Whatever its arguments, the function returns the exact offset reduced
    modulo 2^32. *)
Lemma offset_modulo channel_count width x y channel :
  offset_in_interleaved_1d_vec channel_count width x y channel
  = ((y * width + x) * channel_count + channel) mod 2 ^ 32.
Proof.
  unfold offset_in_interleaved_1d_vec, u32_add, u32_mul, to_uint32.
  rewrite (Z.add_mod_idemp_l (y * width) x) by lia.
  rewrite (Z.mul_mod_idemp_l (y * width + x) channel_count) by lia.
  rewrite (Z.add_mod_idemp_l ((y * width + x) * channel_count) channel) by lia.
  apply to_size_t_small.
  pose proof (Z.mod_pos_bound ((y * width + x) * channel_count + channel)
                (2 ^ 32) ltac:(lia)). lia.
Qed.

(** The sample of a pixel of a [width * height] image lies below the size
    of the buffer. *)
Lemma sample_position_bound channel_count width height x y channel :
  0 <= x < width -> 0 <= y < height -> 0 <= channel < channel_count ->
  0 <= (y * width + x) * channel_count + channel
    < width * height * channel_count.
Proof.
  intros Hx Hy Hc.
  assert (Hpix : 0 <= y * width + x <= width * height - 1) by nia.
  nia.
Qed.

Lemma offset_interleaved channel_count width height x y channel :
  0 <= x < width -> 0 <= y < height -> 0 <= channel < channel_count ->
  width * height * channel_count <= 2 ^ 32 ->
  offset_in_interleaved_1d_vec channel_count width x y channel
  = (y * width + x) * channel_count + channel.
Proof.
  intros Hx Hy Hc Hfits. rewrite offset_modulo.
  pose proof (sample_position_bound channel_count width height x y channel
                Hx Hy Hc).
  apply Z.mod_small. lia.
Qed.

(** Channel, column and row are recovered from the exact offset. *)
Lemma sample_position_inv channel_count width x y channel :
  0 <= x < width -> 0 <= y -> 0 <= channel < channel_count ->
  let offset := (y * width + x) * channel_count + channel in
  offset mod channel_count = channel /\
  (offset / channel_count) mod width = x /\
  offset / channel_count / width = y.
Proof.
  intros Hx Hy Hc offset. unfold offset.
  assert (Hpixel : ((y * width + x) * channel_count + channel) / channel_count
                   = y * width + x).
  { rewrite Z.add_comm, Z.div_add by lia. rewrite Z.div_small; lia. }
  split.
  - rewrite Z.add_comm, Z.mod_add by lia. apply Z.mod_small; lia.
  - rewrite Hpixel. apply linear_position_inv. lia.
Qed.

(** X1.  For every channel count, the sample [(x, y, channel)] of an image
    of [width * height] pixels whose buffer has at most 2^32 bytes is at
    the offset [(y * width + x) * channel_count + channel], which lies
    inside the buffer of [width * height * channel_count] bytes. *)
Theorem offset_interleaved_in_bounds
    (channel_count width height x y channel : Z) :
  0 <= x < width -> 0 <= y < height -> 0 <= channel < channel_count ->
  width * height * channel_count <= 2 ^ 32 ->
  offset_in_interleaved_1d_vec channel_count width x y channel
    = (y * width + x) * channel_count + channel /\
  0 <= offset_in_interleaved_1d_vec channel_count width x y channel
    < width * height * channel_count.
Proof.
  intros Hx Hy Hc Hfits.
  rewrite (offset_interleaved channel_count width height) by assumption.
  split; [reflexivity|]. now apply sample_position_bound.
Qed.

Lemma offset_interleaved_in_bounds_witness :
  offset_in_interleaved_1d_vec 3 640 639 479 2 = (479 * 640 + 639) * 3 + 2 /\
  0 <= offset_in_interleaved_1d_vec 3 640 639 479 2 < 640 * 480 * 3.
Proof. apply (offset_interleaved_in_bounds 3 640 480 639 479 2); lia. Defined.

(** X2.  Under the same conditions two samples that differ in column, row
    or channel have different offsets: no byte of an interleaved buffer is
    shared. *)
Theorem offset_interleaved_injective
    (channel_count width height x1 y1 channel1 x2 y2 channel2 : Z) :
  0 <= x1 < width -> 0 <= y1 < height -> 0 <= channel1 < channel_count ->
  0 <= x2 < width -> 0 <= y2 < height -> 0 <= channel2 < channel_count ->
  width * height * channel_count <= 2 ^ 32 ->
  (x1, y1, channel1) <> (x2, y2, channel2) ->
  offset_in_interleaved_1d_vec channel_count width x1 y1 channel1
    <> offset_in_interleaved_1d_vec channel_count width x2 y2 channel2.
Proof.
  intros Hx1 Hy1 Hc1 Hx2 Hy2 Hc2 Hfits Hne.
  rewrite !(offset_interleaved channel_count width height) by assumption.
  intros Heq. apply Hne.
  destruct (sample_position_inv channel_count width x1 y1 channel1)
    as (Hch1 & Hcol1 & Hrow1); [lia | lia | lia |].
  destruct (sample_position_inv channel_count width x2 y2 channel2)
    as (Hch2 & Hcol2 & Hrow2); [lia | lia | lia |].
  rewrite Heq in Hch1, Hcol1, Hrow1. congruence.
Qed.

Lemma offset_interleaved_injective_witness :
  offset_in_interleaved_1d_vec 3 640 639 0 2
    <> offset_in_interleaved_1d_vec 3 640 0 1 0.
Proof.
  apply (offset_interleaved_injective 3 640 480 639 0 2 0 1 0);
    [lia | lia | lia | lia | lia | lia | lia | discriminate].
Defined.

(** X3.  The offset can be decoded: under the same conditions its
    remainder by [channel_count] is the channel, and its quotient, the
    number of the pixel, gives the column as the remainder by [width] and
    the row as the quotient. *)
Theorem offset_interleaved_decode
    (channel_count width height x y channel : Z) :
  0 <= x < width -> 0 <= y < height -> 0 <= channel < channel_count ->
  width * height * channel_count <= 2 ^ 32 ->
  let offset := offset_in_interleaved_1d_vec channel_count width x y channel in
  offset mod channel_count = channel /\
  (offset / channel_count) mod width = x /\
  offset / channel_count / width = y.
Proof.
  intros Hx Hy Hc Hfits offset. unfold offset.
  rewrite (offset_interleaved channel_count width height) by assumption.
  apply sample_position_inv; lia.
Qed.

Lemma offset_interleaved_decode_witness :
  let offset := offset_in_interleaved_1d_vec 3 640 639 479 2 in
  offset mod 3 = 2 /\ (offset / 3) mod 640 = 639 /\ offset / 3 / 640 = 479.
Proof. apply (offset_interleaved_decode 3 640 480 639 479 2); lia. Defined.

(** X4.  The arithmetic is 32 bits wide for every argument: the offset
    returned is the exact one reduced modulo 2^32, so it never reaches 2^32
    although it is returned as a [size_t]. *)
Theorem offset_wraps_at_32_bits (channel_count width x y channel : Z) :
  offset_in_interleaved_1d_vec channel_count width x y channel
    = ((y * width + x) * channel_count + channel) mod 2 ^ 32 /\
  0 <= offset_in_interleaved_1d_vec channel_count width x y channel < 2 ^ 32.
Proof.
  rewrite offset_modulo. split; [reflexivity|].
  apply Z.mod_pos_bound. lia.
Qed.

(** ** The count of the evaluator and the orbit *)

Section EvaluatorOrbit.
Context {L : ComplexLib}.
Variables (c : complex) (bound : float).

(** What the loop returns from the state [(i, orbit c n)]: either [max], and
    then none of the points it met was outside the bound, or the counter at
    the first such point. *)
Lemma iterations_loop_first_escape max trip :
  forall n i,
    (iterations_loop trip c bound max i (orbit c n) = max /\
     forall j, (j < trip)%nat ->
       double_gt (cabs (orbit c (n + j))) bound = false) \/
    (exists k, (k < trip)%nat /\
       iterations_loop trip c bound max i (orbit c n) = i + Z.of_nat k /\
       double_gt (cabs (orbit c (n + k))) bound = true /\
       forall j, (j < k)%nat ->
         double_gt (cabs (orbit c (n + j))) bound = false).
Proof.
  induction trip as [|trip IH]; intros n i; cbn [iterations_loop].
  - left. split; [reflexivity | intros j Hj; lia].
  - destruct (double_gt (cabs (orbit c n)) bound) eqn:Hgt.
    + right. exists O. rewrite Nat.add_0_r.
      repeat split; [lia | lia | exact Hgt | intros j Hj; lia].
    + change (cadd (cmul (orbit c n) (orbit c n)) c) with (orbit c (Datatypes.S n)).
      destruct (IH (Datatypes.S n) (i + 1)) as [[Hr Hin] | (k & Hk & Hr & Hat & Hbefore)].
      * left. split; [exact Hr|]. intros [|j] Hj.
        -- now rewrite Nat.add_0_r.
        -- replace (n + Datatypes.S j)%nat with (Datatypes.S n + j)%nat by lia.
           apply Hin. lia.
      * right. exists (Datatypes.S k).
        replace (n + Datatypes.S k)%nat with (Datatypes.S n + k)%nat by lia.
        repeat split; [lia | rewrite Hr; lia | exact Hat |].
        intros [|j] Hj.
        -- now rewrite Nat.add_0_r.
        -- replace (n + Datatypes.S j)%nat with (Datatypes.S n + j)%nat by lia.
           apply Hbefore. lia.
Qed.

Lemma get_number_of_iterations_cases max :
  (get_number_of_iterations c bound max = max /\
   forall j, (j < Z.to_nat max)%nat ->
     double_gt (cabs (orbit c j)) bound = false) \/
  (0 <= get_number_of_iterations c bound max < max /\
   double_gt (cabs (orbit c (Z.to_nat (get_number_of_iterations c bound max))))
     bound = true /\
   forall j, (j < Z.to_nat (get_number_of_iterations c bound max))%nat ->
     double_gt (cabs (orbit c j)) bound = false).
Proof.
  unfold get_number_of_iterations.
  destruct (iterations_loop_first_escape max (Z.to_nat (max - 0)) O 0)
    as [[Hr Hin] | (k & Hk & Hr & Hat & Hbefore)]; cbn [orbit Nat.add] in *.
  - left. split; [exact Hr|]. intros j Hj. apply Hin. lia.
  - right. rewrite Hr. replace (Z.to_nat (0 + Z.of_nat k)) with k by lia.
    split; [lia|]. split; assumption.
Qed.

End EvaluatorOrbit.

(** X5.  The count identifies the first point of the orbit outside the
    bound.  A count below [max_iterations] is the index of a point of the
    orbit [z_0 = c], [z_(n+1) = z_n * z_n + c] whose modulus exceeds the
    bound, no earlier point doing so; the count [max_iterations] is returned
    only when none of the first [max_iterations] points does. *)
Theorem iteration_count_first_escape {L : ComplexLib}
    (c : complex) (bound : float) (max_iterations : Z) :
  let count := get_number_of_iterations c bound max_iterations in
  (count < max_iterations ->
     0 <= count /\
     double_gt (cabs (orbit c (Z.to_nat count))) bound = true /\
     forall j, (j < Z.to_nat count)%nat ->
       double_gt (cabs (orbit c j)) bound = false) /\
  (count = max_iterations ->
     forall j, (j < Z.to_nat max_iterations)%nat ->
       double_gt (cabs (orbit c j)) bound = false).
Proof.
  intros count. unfold count.
  destruct (get_number_of_iterations_cases c bound max_iterations)
    as [[Hr Hin] | (Hr & Hat & Hbefore)]; split.
  - intros Hlt. lia.
  - intros _. exact Hin.
  - intros _. split; [lia|]. split; assumption.
  - intros Heq. lia.
Qed.

(** The count under a smaller budget. *)
Lemma count_under_smaller_budget {L : ComplexLib}
    (c : complex) (bound : float) (max_iterations smaller : Z) :
  smaller <= max_iterations ->
  get_number_of_iterations c bound smaller
  = Z.min (get_number_of_iterations c bound max_iterations) smaller.
Proof.
  intros Hle.
  destruct (Z.le_gt_cases smaller 0) as [Hnonpos|Hpos].
  - rewrite (get_number_of_iterations_nonpositive c bound smaller Hnonpos).
    destruct (Z.le_gt_cases max_iterations 0) as [Hm|Hm].
    + rewrite (get_number_of_iterations_nonpositive c bound max_iterations Hm). lia.
    + pose proof (get_number_of_iterations_range c bound max_iterations ltac:(lia)). lia.
  - destruct (get_number_of_iterations_cases c bound max_iterations)
      as [[Hr Hin] | (Hr & Hat & Hbefore)].
    + rewrite Hr, Z.min_r by lia. unfold get_number_of_iterations.
      apply (iterations_loop_bounded c bound smaller _ O).
      intros j Hj. apply Hin. lia.
    + set (count := get_number_of_iterations c bound max_iterations) in *.
      destruct (Z.lt_ge_cases count smaller) as [Hin|Hout].
      * rewrite Z.min_l by lia. unfold get_number_of_iterations at 1.
        change c with (orbit c 0) at 2.
        rewrite (iterations_loop_escape c bound smaller (Z.to_nat count));
          [lia | lia | exact Hbefore | exact Hat].
      * rewrite Z.min_r by lia. unfold get_number_of_iterations at 1.
        apply (iterations_loop_bounded c bound smaller _ O).
        intros j Hj. apply Hbefore. lia.
Qed.

(** X6.  A smaller budget cuts the count off and changes nothing else: for
    [smaller <= max_iterations] the count under the budget [smaller] is the
    minimum of [smaller] and the count under [max_iterations].  So a point
    that escapes within a budget keeps its count under every larger one. *)
Theorem iteration_count_budget {L : ComplexLib}
    (c : complex) (bound : float) (max_iterations smaller : Z) :
  smaller <= max_iterations ->
  get_number_of_iterations c bound smaller
  = Z.min (get_number_of_iterations c bound max_iterations) smaller.
Proof. apply count_under_smaller_budget. Qed.

Lemma iteration_count_budget_witness :
  get_number_of_iterations (Complex (-1.5) (-1)) 2 1
  = Z.min (get_number_of_iterations (Complex (-1.5) (-1)) 2 255) 1.
Proof. apply (iteration_count_budget (Complex (-1.5) (-1)) 2 255 1). lia. Defined.

(** ** Comparisons that never hold *)

Lemma nothing_exceeds_nan a : double_gt a PrimFloat.nan = false.
Proof. unfold double_gt. rewrite FloatAxioms.ltb_spec. reflexivity. Qed.

Lemma nothing_exceeds_infinity a : double_gt a PrimFloat.infinity = false.
Proof.
  unfold double_gt. rewrite FloatAxioms.ltb_spec.
  change (Prim2SF PrimFloat.infinity) with (S754_infinity false).
  unfold SFltb, SFcompare.
  destruct (Prim2SF a) as [s | [] | | s m e]; reflexivity.
Qed.

Lemma nan_exceeds_nothing b : double_gt PrimFloat.nan b = false.
Proof.
  unfold double_gt. rewrite FloatAxioms.ltb_spec.
  change (Prim2SF PrimFloat.nan) with S754_nan.
  unfold SFltb, SFcompare.
  destruct (Prim2SF b) as [s | [] | | s m e]; reflexivity.
Qed.

Lemma add_nan_l y : (PrimFloat.nan + y)%float = PrimFloat.nan.
Proof. apply Prim2SF_inj. rewrite FloatAxioms.add_spec. reflexivity. Qed.

Lemma add_nan_r y : (y + PrimFloat.nan)%float = PrimFloat.nan.
Proof.
  apply Prim2SF_inj. rewrite FloatAxioms.add_spec.
  change (Prim2SF PrimFloat.nan) with S754_nan.
  unfold SF64add, SFadd. destruct (Prim2SF y) as [s | [] | | s m e]; reflexivity.
Qed.

Lemma sub_nan_l y : (PrimFloat.nan - y)%float = PrimFloat.nan.
Proof. apply Prim2SF_inj. rewrite FloatAxioms.sub_spec. reflexivity. Qed.

Lemma mul_nan_l y : (PrimFloat.nan * y)%float = PrimFloat.nan.
Proof. apply Prim2SF_inj. rewrite FloatAxioms.mul_spec. reflexivity. Qed.

(** The modulus of a point with a NaN part is NaN. *)
Lemma cabs_nan z :
  real z = PrimFloat.nan \/ imag z = PrimFloat.nan ->
  cabs (ComplexLib := libcomplex) z = PrimFloat.nan.
Proof.
  destruct z as [re im]. cbn [cabs libcomplex real imag].
  intros [-> | ->].
  - now rewrite mul_nan_l, add_nan_l.
  - now rewrite mul_nan_l, add_nan_r.
Qed.

(** The update [z * z + c] keeps the NaN parts of [c]. *)
Lemma orbit_nan c n :
  (real c = PrimFloat.nan ->
   real (orbit (L := libcomplex) c n) = PrimFloat.nan) /\
  (imag c = PrimFloat.nan ->
   imag (orbit (L := libcomplex) c n) = PrimFloat.nan).
Proof.
  destruct n as [|n]; [now split|].
  cbn [orbit cadd cmul libcomplex real imag].
  split; intros ->; apply add_nan_r.
Qed.

(** X7.  A bound that is NaN or plus infinity is never exceeded: for every
    point, and whatever the library computes for the modulus, the count is
    [max_iterations]. *)
Theorem unreachable_bound_never_exceeded {L : ComplexLib}
    (c : complex) (bound : float) (max_iterations : Z) :
  bound = PrimFloat.nan \/ bound = PrimFloat.infinity ->
  get_number_of_iterations c bound max_iterations = max_iterations.
Proof.
  intros Hbound. unfold get_number_of_iterations.
  apply (iterations_loop_bounded c bound max_iterations _ O).
  intros j _. destruct Hbound as [-> | ->].
  - apply nothing_exceeds_nan.
  - apply nothing_exceeds_infinity.
Qed.

Lemma unreachable_bound_never_exceeded_witness :
  get_number_of_iterations (Complex 3 0) PrimFloat.infinity 255 = 255.
Proof.
  apply (unreachable_bound_never_exceeded (Complex 3 0) PrimFloat.infinity 255).
  right. reflexivity.
Defined.

(** X8.  The point both parts of which are NaN never escapes, for every
    bound and every budget: its modulus is NaN at every step of the
    recurrence, the comparison with the bound is false, and the count is
    [max_iterations]. *)
Theorem nan_point_never_escapes (bound : float) (max_iterations : Z) :
  get_number_of_iterations (Complex PrimFloat.nan PrimFloat.nan)
    bound max_iterations = max_iterations.
Proof.
  unfold get_number_of_iterations.
  apply (iterations_loop_bounded _ bound max_iterations _ O).
  intros j _. cbn [Nat.add].
  rewrite cabs_nan; [apply nan_exceeds_nothing|].
  destruct (orbit_nan (Complex PrimFloat.nan PrimFloat.nan) j) as [Hre _].
  left. now apply Hre.
Qed.

(** ** Images of one colour, and the range of the bytes *)

Section GeneratorImages.
Context {L : ComplexLib}.
Variables (center_x center_y size : float) (max_iterations pixels_wide : Z).
Hypothesis width_fits : 0 < pixels_wide <= 46340.

(** Position [j] of the buffer belongs to a pixel of the grid. *)
Lemma position_pixel j :
  0 <= j < pixels_wide * pixels_wide ->
  0 <= j mod pixels_wide < pixels_wide /\ 0 <= j / pixels_wide < pixels_wide.
Proof.
  intros Hj. split.
  - apply Z.mod_pos_bound. lia.
  - split; [apply Z.div_pos; lia | apply Z.div_lt_upper_bound; lia].
Qed.

(** An image all of whose pixels narrow to the same byte. *)
Lemma create_image_constant value :
  (forall x y, 0 <= x < pixels_wide -> 0 <= y < pixels_wide ->
     to_uint8 (pixel_gray center_x center_y size max_iterations pixels_wide x y)
     = value) ->
  create_grayscale_mandelbrot_image center_x center_y size
    max_iterations pixels_wide
  = Ok (replicate (Z.to_nat (pixels_wide * pixels_wide)) value).
Proof.
  intros Hvalue.
  destruct (create_image_filled center_x center_y size max_iterations
              pixels_wide width_fits) as (image & -> & Hlen & Hfilled).
  f_equal. apply list_eq. intros i.
  destruct (Nat.lt_ge_cases i (Z.to_nat (pixels_wide * pixels_wide))) as [Hin|Hout].
  - rewrite lookup_replicate_2 by exact Hin.
    pose proof (Hfilled (Z.of_nat i) ltac:(lia)) as Hbyte.
    rewrite Nat2Z.id in Hbyte. rewrite Hbyte. f_equal.
    destruct (position_pixel (Z.of_nat i) ltac:(lia)) as [Hcol Hrow].
    now apply Hvalue.
  - rewrite lookup_ge_None_2 by lia.
    symmetry. apply lookup_replicate_None. lia.
Qed.

(** Every byte of the image is the narrowed gray value of some pixel. *)
Lemma create_image_bytes image (P : Z -> Prop) :
  create_grayscale_mandelbrot_image center_x center_y size
    max_iterations pixels_wide = Ok image ->
  (forall x y, 0 <= x < pixels_wide -> 0 <= y < pixels_wide ->
     P (to_uint8 (pixel_gray center_x center_y size max_iterations pixels_wide x y))) ->
  Forall P image.
Proof.
  intros Hrun HP.
  destruct (create_image_filled center_x center_y size max_iterations
              pixels_wide width_fits) as (image' & Hrun' & Hlen & Hfilled).
  assert (image' = image) as -> by congruence.
  apply Forall_lookup. intros i b Hb.
  pose proof (lookup_lt_Some _ _ _ Hb) as Hi.
  pose proof (Hfilled (Z.of_nat i) ltac:(lia)) as Hbyte.
  rewrite Nat2Z.id, Hb in Hbyte. injection Hbyte as ->.
  destruct (position_pixel (Z.of_nat i) ltac:(lia)) as [Hcol Hrow].
  now apply HP.
Qed.

End GeneratorImages.

(** A pixel whose count is the whole budget has the gray value [0]. *)
Lemma pixel_gray_of_full_count {L : ComplexLib}
    center_x center_y size max_iterations pixels_wide x y :
  pixel_iterations center_x center_y size max_iterations pixels_wide x y
    = max_iterations ->
  to_uint8 (pixel_gray center_x center_y size max_iterations pixels_wide x y) = 0.
Proof.
  intros Hcount. unfold pixel_gray, int_sub.
  now rewrite Hcount, Z.sub_diag.
Qed.

(** X9.  With a budget [max_iterations <= 0] no pixel is iterated and the
    image, of a width up to 46340, is returned with all its
    [pixels_wide * pixels_wide] bytes at [0]. *)
Theorem nonpositive_budget_black_image {L : ComplexLib}
    (center_x center_y size : float) (max_iterations pixels_wide : Z) :
  0 < pixels_wide <= 46340 ->
  max_iterations <= 0 ->
  create_grayscale_mandelbrot_image center_x center_y size
    max_iterations pixels_wide
  = Ok (replicate (Z.to_nat (pixels_wide * pixels_wide)) 0).
Proof.
  intros Hw Hmax. apply create_image_constant; [exact Hw|].
  intros x y _ _. apply pixel_gray_of_full_count.
  now apply get_number_of_iterations_nonpositive.
Qed.

Lemma nonpositive_budget_black_image_witness :
  create_grayscale_mandelbrot_image (-0.5) 0 2 (-7) 3
  = Ok (replicate (Z.to_nat (3 * 3)) 0).
Proof. apply (nonpositive_budget_black_image (-0.5) 0 2 (-7) 3); lia. Defined.

(** X10.  A window size that is NaN or plus infinity gives an image with
    all bytes at [0], for every budget and whatever the library computes:
    the size is also the bound of the evaluator, and no modulus exceeds
    it. *)
Theorem unreachable_size_black_image {L : ComplexLib}
    (center_x center_y size : float) (max_iterations pixels_wide : Z) :
  0 < pixels_wide <= 46340 ->
  size = PrimFloat.nan \/ size = PrimFloat.infinity ->
  create_grayscale_mandelbrot_image center_x center_y size
    max_iterations pixels_wide
  = Ok (replicate (Z.to_nat (pixels_wide * pixels_wide)) 0).
Proof.
  intros Hw Hsize. apply create_image_constant; [exact Hw|].
  intros x y _ _. apply pixel_gray_of_full_count.
  unfold pixel_iterations, get_number_of_iterations.
  apply (iterations_loop_bounded _ size max_iterations _ O).
  intros j _. destruct Hsize as [-> | ->].
  - apply nothing_exceeds_nan.
  - apply nothing_exceeds_infinity.
Qed.

Lemma unreachable_size_black_image_witness :
  create_grayscale_mandelbrot_image (-0.5) 0 PrimFloat.nan 255 3
  = Ok (replicate (Z.to_nat (3 * 3)) 0).
Proof.
  apply (unreachable_size_black_image (-0.5) 0 PrimFloat.nan 255 3);
    [lia | left; reflexivity].
Defined.

(** X11.  A centre both coordinates of which are NaN gives an image with
    all bytes at [0]: every pixel is mapped to the point [(NaN, NaN)],
    which never escapes. *)
Theorem nan_centre_black_image
    (center_x center_y size : float) (max_iterations pixels_wide : Z) :
  0 < pixels_wide <= 46340 ->
  center_x = PrimFloat.nan -> center_y = PrimFloat.nan ->
  create_grayscale_mandelbrot_image center_x center_y size
    max_iterations pixels_wide
  = Ok (replicate (Z.to_nat (pixels_wide * pixels_wide)) 0).
Proof.
  intros Hw -> ->. apply create_image_constant; [exact Hw|].
  intros x y _ _. apply pixel_gray_of_full_count.
  unfold pixel_iterations, get_number_of_iterations.
  apply (iterations_loop_bounded _ size max_iterations _ O).
  intros j _. cbn [Nat.add].
  rewrite cabs_nan; [apply nan_exceeds_nothing|].
  set (c := pixel_point PrimFloat.nan PrimFloat.nan size pixels_wide x y).
  destruct (orbit_nan c j) as [Hre _]. left. apply Hre.
  unfold c, pixel_point, get_scaled_coordinate; cbn [real].
  now rewrite sub_nan_l, add_nan_l.
Qed.

Lemma nan_centre_black_image_witness :
  create_grayscale_mandelbrot_image PrimFloat.nan PrimFloat.nan 2 255 3
  = Ok (replicate (Z.to_nat (3 * 3)) 0).
Proof.
  apply (nan_centre_black_image PrimFloat.nan PrimFloat.nan 2 255 3);
    [lia | reflexivity | reflexivity].
Defined.

(** X12.  A width that is zero or negative is not refused.  The loops are
    not entered, and the buffer of line 52 is returned as it was
    allocated: [pixels_wide * pixels_wide] bytes at [0], none at all for
    the width [0]. *)
Theorem nonpositive_width_image {L : ComplexLib}
    (center_x center_y size : float) (max_iterations pixels_wide : Z) :
  -46340 <= pixels_wide <= 0 ->
  create_grayscale_mandelbrot_image center_x center_y size
    max_iterations pixels_wide
  = Ok (replicate (Z.to_nat (pixels_wide * pixels_wide)) 0).
Proof.
  intros Hw. unfold create_grayscale_mandelbrot_image, int_mul.
  rewrite wrap_int_id by (unfold is_int, INT_MIN, INT_MAX; nia).
  rewrite to_size_t_small by nia.
  destruct (vector_create_ok (pixels_wide * pixels_wide) 0)
    as (image0 & Hcreate & Hlen0 & _); [unfold Vector.max_size; nia|].
  unfold Vector.create in *.
  destruct (Vector.max_size <? pixels_wide * pixels_wide); [discriminate|].
  cbn [mbind result_bind]. unfold for_range.
  replace (Z.to_nat (pixels_wide - 0)) with O by lia. reflexivity.
Qed.

Lemma nonpositive_width_image_witness :
  create_grayscale_mandelbrot_image (-0.5) 0 2 255 (-3)
  = Ok (replicate (Z.to_nat (-3 * -3)) 0).
Proof. apply (nonpositive_width_image (-0.5) 0 2 255 (-3)); lia. Defined.

(** X14.  With a budget from 0 to 255 no byte of the image exceeds the
    budget: every byte lies between [0] and [max_iterations]. *)
Theorem image_bytes_within_budget {L : ComplexLib}
    (center_x center_y size : float) (max_iterations pixels_wide : Z) :
  0 < pixels_wide <= 46340 ->
  0 <= max_iterations <= 255 ->
  exists image,
    create_grayscale_mandelbrot_image center_x center_y size
      max_iterations pixels_wide = Ok image /\
    Forall (fun byte => 0 <= byte <= max_iterations) image.
Proof.
  intros Hw Hmax.
  destruct (create_image_filled center_x center_y size max_iterations
              pixels_wide Hw) as (image & Hrun & _).
  exists image. split; [exact Hrun|].
  apply (create_image_bytes center_x center_y size max_iterations pixels_wide
           Hw image _ Hrun).
  intros x y _ _. unfold pixel_gray, int_sub.
  rewrite to_uint8_wrap_int. unfold to_uint8.
  pose proof (get_number_of_iterations_range
    (pixel_point center_x center_y size pixels_wide x y) size max_iterations
    ltac:(lia)) as Hr.
  fold (pixel_iterations center_x center_y size max_iterations pixels_wide x y) in Hr.
  rewrite Z.mod_small; lia.
Qed.

Lemma image_bytes_within_budget_witness :
  exists image,
    create_grayscale_mandelbrot_image (-0.5) 0 2 100 4 = Ok image /\
    Forall (fun byte => 0 <= byte <= 100) image.
Proof. apply (image_bytes_within_budget (-0.5) 0 2 100 4); lia. Defined.

(** ** Images of the same window under two budgets *)

(** X15.  Lowering the budget darkens the image uniformly.  For budgets
    [smaller <= max_iterations <= 255], the image under [smaller] is the
    image under [max_iterations] with [max_iterations - smaller] taken off
    every byte and the result cut off at [0]. *)
Theorem smaller_budget_darkens {L : ComplexLib}
    (center_x center_y size : float) (max_iterations smaller pixels_wide : Z) :
  0 < pixels_wide <= 46340 ->
  0 <= smaller <= max_iterations ->
  max_iterations <= 255 ->
  exists image,
    create_grayscale_mandelbrot_image center_x center_y size
      max_iterations pixels_wide = Ok image /\
    create_grayscale_mandelbrot_image center_x center_y size
      smaller pixels_wide
    = Ok (map (fun byte => Z.max 0 (byte - (max_iterations - smaller))) image).
Proof.
  intros Hw Hsmaller Hmax.
  destruct (create_image_filled center_x center_y size max_iterations
              pixels_wide Hw) as (image & Hrun & Hlen & Hfilled).
  destruct (create_image_filled center_x center_y size smaller
              pixels_wide Hw) as (image' & Hrun' & Hlen' & Hfilled').
  exists image. split; [exact Hrun|]. rewrite Hrun'. f_equal.
  apply list_eq. intros i. rewrite list_lookup_fmap.
  destruct (Nat.lt_ge_cases i (Z.to_nat (pixels_wide * pixels_wide))) as [Hin|Hout].
  - pose proof (Hfilled (Z.of_nat i) ltac:(lia)) as Hbyte.
    pose proof (Hfilled' (Z.of_nat i) ltac:(lia)) as Hbyte'.
    rewrite Nat2Z.id in Hbyte, Hbyte'. rewrite Hbyte, Hbyte'. cbn [fmap option_fmap option_map].
    f_equal. unfold pixel_gray, int_sub, pixel_iterations.
    rewrite !to_uint8_wrap_int. unfold to_uint8.
    set (c := pixel_point center_x center_y size pixels_wide
                (Z.of_nat i mod pixels_wide) (Z.of_nat i / pixels_wide)).
    rewrite (count_under_smaller_budget c size max_iterations smaller) by lia.
    pose proof (get_number_of_iterations_range c size max_iterations ltac:(lia)) as Hr.
    rewrite !Z.mod_small by lia. lia.
  - rewrite !lookup_ge_None_2 by lia. reflexivity.
Qed.

Lemma smaller_budget_darkens_witness :
  exists image,
    create_grayscale_mandelbrot_image (-0.5) 0 2 255 4 = Ok image /\
    create_grayscale_mandelbrot_image (-0.5) 0 2 3 4
    = Ok (map (fun byte => Z.max 0 (byte - (255 - 3))) image).
Proof. apply (smaller_budget_darkens (-0.5) 0 2 255 3 4); lia. Defined.

(** ** [main] *)

(** X16.  The program generates its image without a fault, hands the
    encoder a matrix of 1024 rows and 1024 columns over a buffer of exactly
    [1024 * 1024] bytes, and prints [Success!] when the encoder returns
    true and [Failed to write out file] when it returns false; the exit
    status is [0] in both cases. *)
Theorem main_reports_encoder {L : ComplexLib}
    (CV_8UC1 : Z) (full_path : String.string)
    (imwrite : String.string -> Mat -> bool) :
  exists image,
    create_grayscale_mandelbrot_image (-0.5) 0 2 255 1024 = Ok image /\
    length image = Z.to_nat (1024 * 1024) /\
    let output_gray :=
      {| rows := 1024; cols := 1024; type := CV_8UC1; data := image |} in
    main CV_8UC1 full_path imwrite
    = Ok (0, if imwrite full_path output_gray
             then String.append "Success!" endl
             else String.append "Failed to write out file" endl).
Proof.
  destruct (create_image_filled (-0.5) 0 2 255 1024 ltac:(lia))
    as (image & Hrun & Hlen & _).
  exists image. split; [exact Hrun|]. split; [exact Hlen|].
  intros output_gray. unfold main.
  change (int_mul 512 2) with 1024. cbv zeta. rewrite Hrun.
  cbn [mbind result_bind]. fold output_gray.
  now destruct (imwrite full_path output_gray).
Qed.
